(** * css-refactoring-tools: the SCSS variable extractor of convert-to-scss.js

    A shallow embedding of [extractVariables] and [generateVariablesFile]
    (src/convert-to-scss.js) together with the properties of the variable
    scaffold they produce.

    Conventions of the embedding.
    - A JavaScript string is a [string], one [ascii] for one code unit (a
      unit beyond the range of [ascii] behaves as any character that is in
      none of the classes tested).  The two regular expressions of the
      script only ever inspect single characters, so they are embedded as
      the scanners they denote.
    - A JavaScript number is a [number]: [None] is NaN, [Some n] a
      non-negative value.  [parseInt] of a digit run is the binary64 value
      nearest to the integer it spells ([toNumber]), with [infinity] standing
      for +Infinity; below [2^53] that is the integer itself.
    - A [Set] of strings is the list of its elements in insertion order,
      which is the order [Array.from] reads them back in.
    - A property access on [undefined] throws: the functions return a
      [completion]. *)

From Stdlib Require Import Strings.String Strings.Ascii List NArith Bool Arith Lia.
From Stdlib Require Import Sorting.Sorted Sorting.Permutation.
From Stdlib Require Import Numbers.DecimalString Numbers.DecimalNat.
Import ListNotations.

Local Open Scope list_scope.
Local Open Scope string_scope.

(** ** JavaScript strings and the two regular expressions *)

Module Js.

(** The line feed written [\n] in the script. *)
Definition nl_char : ascii := ascii_of_nat 10.
Definition nl : string := String nl_char "".

(** [s.includes(sub)] *)
Fixpoint includes (s sub : string) : bool :=
  prefix sub s ||
  match s with
  | "" => false
  | String _ s' => includes s' sub
  end.

(** [\d] *)
Definition is_digit (c : ascii) : bool :=
  let n := nat_of_ascii c in ((48 <=? n) && (n <=? 57))%nat.

(** [[0-9a-fA-F]] *)
Definition is_hex (c : ascii) : bool :=
  let n := nat_of_ascii c in
  is_digit c || ((97 <=? n) && (n <=? 102))%nat || ((65 <=? n) && (n <=? 70))%nat.

(** [[^)]] *)
Definition not_rparen (c : ascii) : bool := negb (Ascii.eqb c ")").

(** The longest prefix of [s] made of characters in the class [p] (a greedy
    [p*]), and what follows it. *)
Fixpoint span (p : ascii -> bool) (s : string) : string * string :=
  match s with
  | "" => ("", "")
  | String c s' =>
      if p c then let (a, b) := span p s' in (String c a, b) else ("", s)
  end.

(** At most [n] leading characters of [s] in the class [p] (a greedy
    [p{0,n}]). *)
Fixpoint span_upto (n : nat) (p : ascii -> bool) (s : string) : string :=
  match n, s with
  | S n', String c s' => if p c then String c (span_upto n' p s') else ""
  | _, _ => ""
  end.

Definition all_chars (p : ascii -> bool) (s : string) : bool :=
  forallb p (list_ascii_of_string s).

(** [/\d+px/] anchored at the start of [s].  The greedy digit run cannot give
    a character back to [px], so the only candidate is the whole run. *)
Definition px_at (s : string) : option string :=
  let (ds, rest) := span is_digit s in
  if (1 <=? String.length ds)%nat && prefix "px" rest
  then Some (ds ++ "px") else None.

(** [s.match(/\d+px/)]: the leftmost match, [None] for [null]. *)
Fixpoint match_px (s : string) : option string :=
  match px_at s with
  | Some m => Some m
  | None =>
      match s with
      | "" => None
      | String _ s' => match_px s'
      end
  end.

(** [s] without its prefix [p], when it has it. *)
Fixpoint strip_prefix (p s : string) : option string :=
  match p, s with
  | "", _ => Some s
  | String a p', String b s' =>
      if Ascii.eqb a b then strip_prefix p' s' else None
  | _, _ => None
  end.

(** [/rgba?\([^)]+\)/] anchored at the start of [s].  The optional [a] is
    tried first; giving it back never helps, since an [a] is not a [(].  The
    greedy [[^)]+] stops at the first [)] or at the end of the string, and
    only the former lets the final [\)] match. *)
Definition rgb_at (s : string) : option string :=
  match strip_prefix "rgb" s with
  | None => None
  | Some r =>
      let opened :=
        match strip_prefix "a(" r with
        | Some r1 => Some ("rgba(", r1)
        | None =>
            match strip_prefix "(" r with
            | Some r1 => Some ("rgb(", r1)
            | None => None
            end
        end in
      match opened with
      | None => None
      | Some (head, r1) =>
          let (body, r2) := span not_rparen r1 in
          if (1 <=? String.length body)%nat && prefix ")" r2
          then Some (head ++ body ++ ")") else None
      end
  end.

(** [/#[0-9a-fA-F]{3,6}/] anchored at the start of [s]. *)
Definition hex_at (s : string) : option string :=
  match s with
  | String "#" r =>
      let hs := span_upto 6 is_hex r in
      if (3 <=? String.length hs)%nat then Some (String "#" hs) else None
  | _ => None
  end.

(** The alternation [#[0-9a-fA-F]{3,6}|rgba?\([^)]+\)] anchored at the start
    of [s]: the left alternative is tried first. *)
Definition color_at (s : string) : option string :=
  match hex_at s with
  | Some m => Some m
  | None => rgb_at s
  end.

(** [s.match(/#[0-9a-fA-F]{3,6}|rgba?\([^)]+\)/)] *)
Fixpoint match_color (s : string) : option string :=
  match color_at s with
  | Some m => Some m
  | None =>
      match s with
      | "" => None
      | String _ s' => match_color s'
      end
  end.

(** *** Numbers *)

(** [None] is NaN. *)
Definition number := option N.

Definition two53 : N := Eval vm_compute in (2 ^ 53)%N.

(** Stands for +Infinity: every finite binary64 value is below it. *)
Definition infinity : N := Eval vm_compute in (2 ^ 1024)%N.

(** The binary64 value nearest to the integer [n], ties to the even
    significand. *)
Definition toNumber (n : N) : N :=
  if (n <? two53)%N then n
  else
    let e := (N.log2 n - 52)%N in
    let q := N.shiftr n e in
    let r := N.land n (N.ones e) in
    let half := N.shiftl 1 (e - 1) in
    let q' :=
      if (r <? half)%N then q
      else if (half <? r)%N then (q + 1)%N
      else if N.even q then q else (q + 1)%N in
    let v := N.shiftl q' e in
    if (infinity <=? v)%N then infinity else v.

Definition digit_value (c : ascii) : N := N.of_nat (nat_of_ascii c - 48).

(** The integer spelled by a run of decimal digits. *)
Definition digits_value (ds : string) : N :=
  fold_left (fun acc c => (10 * acc + digit_value c)%N)
            (list_ascii_of_string ds) 0%N.

(** [parseInt(s)] for a string that starts with neither white space, a sign
    nor [0x] (the strings that reach it start with the digit of a [\d+px]
    match): the leading digit run, NaN when it is empty. *)
Definition parseInt (s : string) : number :=
  let (ds, _) := span is_digit s in
  if (String.length ds =? 0)%nat then None
  else Some (toNumber (digits_value ds)).

(** [a === b] on numbers: NaN equals nothing. *)
Definition num_eq (a b : number) : bool :=
  match a, b with
  | Some x, Some y => (x =? y)%N
  | _, _ => false
  end.

(** [a <= b] on numbers: false when either side is NaN. *)
Definition num_le (a b : number) : bool :=
  match a, b with
  | Some x, Some y => (x <=? y)%N
  | _, _ => false
  end.

(** The sign of [a - b] as [Array.prototype.sort] reads a comparator's
    result: a NaN difference (a NaN operand, or Infinity - Infinity) counts
    as zero. *)
Definition sub_sign (a b : number) : comparison :=
  match a, b with
  | Some x, Some y => (x ?= y)%N
  | _, _ => Eq
  end.

(** The decimal text of an array index, as a template literal prints it. *)
Definition index_to_string (i : nat) : string :=
  NilZero.string_of_uint (Nat.to_uint i).

End Js.

Import Js.

(** ** The parse tree handed over by [css.parse] *)

(** A member of [rule.declarations]: a declaration or a comment.  A field
    the object does not carry is [None]. *)
Record declaration := Declaration {
  decl_type : string;
  property : option string;
  value : option string
}.

#[local] Set Warnings "-register-all".

(** A member of [stylesheet.rules] (or of the [rules] of a media rule). *)
Inductive node := Node {
  type : string;
  declarations : option (list declaration);
  media : option string;
  rules : list node
}.

Record parsedCSS := ParsedCSS { stylesheet_rules : list node }.

(** A plain rule and a media rule as the parser builds them. *)
Definition decl (p v : string) : declaration :=
  Declaration "declaration" (Some p) (Some v).
Definition rule (ds : list declaration) : node := Node "rule" (Some ds) None [].
Definition media_rule (cond : string) (inner : list node) : node :=
  Node "media" None (Some cond) inner.

(** ** Completions *)

(** How a call ends: with a value, or with the [TypeError] of a property
    read on [undefined]. *)
Inductive completion (A : Type) : Type :=
| Normal (a : A)
| Throw.
Arguments Normal {A} a.
Arguments Throw {A}.

Definition bind {A B} (c : completion A) (k : A -> completion B)
  : completion B :=
  match c with
  | Normal a => k a
  | Throw => Throw
  end.

Notation "x <- c ;; k" := (bind c (fun x => k))
  (at level 61, c at next level, right associativity).

(** [xs.forEach(x => body)] threading the state the body updates; a throw
    ends the loop. *)
Fixpoint forEach {A S} (body : S -> A -> completion S) (xs : list A) (s : S)
  : completion S :=
  match xs with
  | [] => Normal s
  | x :: xs' => s' <- body s x ;; forEach body xs' s'
  end.

(** ** Sets of strings *)

(** [set.add(x)]: a new element goes last, a known one changes nothing. *)
Definition set_add (x : string) (s : list string) : list string :=
  if existsb (String.eqb x) s then s else (s ++ [x])%list.

(** ** [extractVariables] *)

(** The three [Set]s of the function. *)
Record sets := Sets {
  set_colors : list string;
  set_spacing : list string;
  set_breakpoints : list string
}.

(** The object the function returns. *)
Record variables := Variables {
  colors : list string;
  spacing : list string;
  breakpoints : list string
}.

(** A string is truthy unless it is absent or empty. *)
Definition truthy (s : option string) : bool :=
  match s with
  | Some s => negb (s =? "")
  | None => false
  end.

(** [p && (p.includes(k1) || ...)] for an optional [p]. *)
Definition has_any (p : option string) (keys : list string) : bool :=
  match p with
  | Some s => truthy p && existsb (includes s) keys
  | None => false
  end.

Definition color_keys : list string := ["color"; "background"; "border"].
Definition spacing_keys : list string := ["margin"; "padding"].

(** Lines 89-99: the colour of one declaration. *)
Definition extract_color (st : sets) (d : declaration) : completion sets :=
  if has_any (property d) color_keys then
    match value d with
    | None => Throw
    | Some v =>
        match match_color v with
        | Some m =>
            Normal (Sets (set_add m (set_colors st)) (set_spacing st)
                         (set_breakpoints st))
        | None => Normal st
        end
    end
  else Normal st.

(** Lines 102-111: the spacing of one declaration. *)
Definition extract_spacing (st : sets) (d : declaration) : completion sets :=
  if has_any (property d) spacing_keys then
    match value d with
    | None => Throw
    | Some v =>
        match match_px v with
        | Some m =>
            Normal (Sets (set_colors st) (set_add m (set_spacing st))
                         (set_breakpoints st))
        | None => Normal st
        end
    end
  else Normal st.

(** Lines 86-113: the body of [rule.declarations.forEach]. *)
Definition visit_declaration (st : sets) (d : declaration) : completion sets :=
  if decl_type d =? "declaration" then
    st1 <- extract_color st d ;;
    extract_spacing st1 d
  else Normal st.

(** Lines 117-122: the breakpoint of a media rule. *)
Definition extract_breakpoint (st : sets) (r : node) : completion sets :=
  if type r =? "media" then
    match media r with
    | None => Throw
    | Some cond =>
        match match_px cond with
        | Some m =>
            Normal (Sets (set_colors st) (set_spacing st)
                         (set_add m (set_breakpoints st)))
        | None => Normal st
        end
    end
  else Normal st.

(** Lines 84-123: the body of [parsedCSS.stylesheet.rules.forEach].  An
    array, even an empty one, is truthy. *)
Definition visit_rule (st : sets) (r : node) : completion sets :=
  st1 <- (match type r =? "rule", declarations r with
          | true, Some ds => forEach visit_declaration ds st
          | _, _ => Normal st
          end) ;;
  extract_breakpoint st1 r.

(** The comparator [(a, b) => parseInt(a) - parseInt(b)], read by its
    sign. *)
Definition by_parseInt (a b : string) : comparison :=
  sub_sign (parseInt a) (parseInt b).

(** [Array.prototype.sort] is stable: an element goes in front of the first
    one that must not precede it. *)
Fixpoint insert_sorted (cmp : string -> string -> comparison) (x : string)
  (l : list string) : list string :=
  match l with
  | [] => [x]
  | y :: l' =>
      match cmp x y with
      | Gt => y :: insert_sorted cmp x l'
      | _ => x :: l
      end
  end.

Definition sort (cmp : string -> string -> comparison) (l : list string)
  : list string :=
  fold_right (insert_sorted cmp) [] l.

Definition scan (css : parsedCSS) : completion sets :=
  forEach visit_rule (stylesheet_rules css) (Sets [] [] []).

Definition extractVariables (css : parsedCSS) : completion variables :=
  st <- scan css ;;
  Normal (Variables (set_colors st)
                    (sort by_parseInt (set_spacing st))
                    (sort by_parseInt (set_breakpoints st))).

(** ** [generateVariablesFile] *)

(** [xs.forEach((x, index) => ...)] appending to the text built so far. *)
Fixpoint forEach_indexed (body : string -> nat -> string) (xs : list string)
  (index : nat) (scss : string) : string :=
  match xs with
  | [] => scss
  | x :: xs' => forEach_indexed body xs' (S index) (scss ++ body x index)
  end.

(** [`$${name}: ${value};\n`] *)
Definition assignment (name val : string) : string :=
  "$" ++ name ++ ": " ++ val ++ ";" ++ nl.

(** Lines 142-146: the four tests run in turn, a later one overriding. *)
Definition color_name (color : string) (index : nat) : string :=
  let name := "color-" ++ index_to_string (index + 1) in
  let name := if color =? "#0d0c0d" then "color-dark" else name in
  let name := if color =? "#f0f0f0" then "color-light" else name in
  let name := if color =? "#e6ac55" then "color-accent" else name in
  let name :=
    if (color =? "#FFFFFF") || (color =? "#ffffff") then "color-white"
    else name in
  name.

(** Lines 157-163. *)
Definition spacing_bucket (size : number) : string :=
  if num_eq size (Some 0%N) then "none"
  else if num_le size (Some 4%N) then "xs"
  else if num_le size (Some 8%N) then "sm"
  else if num_le size (Some 16%N) then "md"
  else if num_le size (Some 24%N) then "lg"
  else if num_le size (Some 32%N) then "xl"
  else "xxl".

(** Lines 154-168. *)
Definition spacing_name (all : list string) (val : string) (index : nat)
  : string :=
  let size := parseInt val in
  let name := "spacing-" ++ spacing_bucket size in
  if (1 <? List.length (filter (fun s => num_eq (parseInt s) size) all))%nat
  then name ++ "-" ++ index_to_string index
  else name.

(** Lines 179-183. *)
Definition breakpoint_bucket (size : number) : string :=
  if num_le size (Some 480%N) then "mobile"
  else if num_le size (Some 768%N) then "tablet"
  else if num_le size (Some 1024%N) then "desktop"
  else if num_le size (Some 1280%N) then "widescreen"
  else "ultrawide".

(** Lines 176-183. *)
Definition breakpoint_name (val : string) : string :=
  "breakpoint-" ++ breakpoint_bucket (parseInt val).

Definition generateVariablesFile (vars : variables) : string :=
  let scss := "// Color Variables" ++ nl in
  let scss :=
    forEach_indexed (fun color index => assignment (color_name color index) color)
                    (colors vars) 0 scss in
  let scss := scss ++ nl ++ "// Spacing Variables" ++ nl in
  let scss :=
    forEach_indexed
      (fun val index => assignment (spacing_name (spacing vars) val index) val)
      (spacing vars) 0 scss in
  let scss := scss ++ nl ++ "// Breakpoint Variables" ++ nl in
  let scss :=
    forEach_indexed (fun val _ => assignment (breakpoint_name val) val)
                    (breakpoints vars) 0 scss in
  scss.

(** Lines 39-43 of [convertToSCSS]: the text written to [_variables.scss]. *)
Definition variables_file (css : parsedCSS) : completion string :=
  vars <- extractVariables css ;;
  Normal (generateVariablesFile vars).

(** ** The shape of the tokens *)

(** One or more decimal digits immediately followed by [px]. *)
Definition px_token (m : string) : Prop :=
  exists ds, m = ds ++ "px" /\ 1 <= String.length ds /\
             all_chars is_digit ds = true.

(** A [#] followed by three to six hexadecimal digits. *)
Definition hex_color (m : string) : Prop :=
  exists hs, m = String "#" hs /\ 3 <= String.length hs <= 6 /\
             all_chars is_hex hs = true.

(** [rgb(] or [rgba(], one or more characters other than [)], and [)]. *)
Definition rgb_color (m : string) : Prop :=
  exists body, (m = "rgb(" ++ body ++ ")" \/ m = "rgba(" ++ body ++ ")") /\
               1 <= String.length body /\ all_chars not_rparen body = true.

Definition color_token (m : string) : Prop := hex_color m \/ rgb_color m.

(** [m] occurs in [s]. *)
Definition occurs_in (m s : string) : Prop :=
  exists pre post, s = pre ++ m ++ post.

(** ** What the traversal discovers, in document order *)

(** The declarations [visit_rule] walks through: those of a top-level node
    of type [rule]. *)
Definition scanned_declarations (r : node) : list declaration :=
  match type r =? "rule", declarations r with
  | true, Some ds => ds
  | _, _ => []
  end.

(** The colour token one declaration yields, if any. *)
Definition color_hit (d : declaration) : option string :=
  if (decl_type d =? "declaration") && has_any (property d) color_keys then
    match value d with
    | Some v => match_color v
    | None => None
    end
  else None.

(** The spacing token one declaration yields, if any. *)
Definition spacing_hit (d : declaration) : option string :=
  if (decl_type d =? "declaration") && has_any (property d) spacing_keys then
    match value d with
    | Some v => match_px v
    | None => None
    end
  else None.

(** The breakpoint token one top-level node yields, if any. *)
Definition breakpoint_hit (r : node) : option string :=
  if type r =? "media" then
    match media r with
    | Some cond => match_px cond
    | None => None
    end
  else None.

Definition hits {A} (f : A -> option string) (xs : list A) : list string :=
  flat_map (fun x => match f x with Some m => [m] | None => [] end) xs.

Definition color_hits (css : parsedCSS) : list string :=
  hits color_hit (flat_map scanned_declarations (stylesheet_rules css)).

Definition spacing_hits (css : parsedCSS) : list string :=
  hits spacing_hit (flat_map scanned_declarations (stylesheet_rules css)).

Definition breakpoint_hits (css : parsedCSS) : list string :=
  hits breakpoint_hit (stylesheet_rules css).

(** Every string of the list once, at the place of its first occurrence. *)
Fixpoint first_occurrences (l : list string) : list string :=
  match l with
  | [] => []
  | x :: l' => x :: filter (fun y => negb (y =? x)) (first_occurrences l')
  end.

(** The declarations and media rules on which the traversal throws. *)
Definition raises_declaration (d : declaration) : bool :=
  (decl_type d =? "declaration") &&
  (has_any (property d) color_keys || has_any (property d) spacing_keys) &&
  match value d with None => true | Some _ => false end.

Definition raises_rule (r : node) : bool :=
  existsb raises_declaration (scanned_declarations r) ||
  ((type r =? "media") && match media r with None => true | Some _ => false end).

(** Adding the strings of [l] to the set [s], one after the other. *)
Definition add_all (l s : list string) : list string :=
  fold_left (fun s x => set_add x s) l s.

Definition opt_list (o : option string) : list string :=
  match o with Some m => [m] | None => [] end.

(** ** The stable sort by [parseInt] *)

(** [a] does not exceed [b] in the number [parseInt] reads from them. *)
Definition px_le (a b : string) : Prop :=
  exists x y, parseInt a = Some x /\ parseInt b = Some y /\ (x <= y)%N.

(** [a] is below [b] in the number [parseInt] reads from them. *)
Definition px_lt (a b : string) : Prop :=
  exists x y, parseInt a = Some x /\ parseInt b = Some y /\ (x < y)%N.

(** [parseInt s] is a number. *)
Definition numeric (s : string) : Prop := exists n, parseInt s = Some n.

(** [parseInt s === k] *)
Definition same_size (k : number) (s : string) : bool :=
  num_eq (parseInt s) k.

(** [r] holds the strings of [l] in ascending order of [parseInt], those of
    equal number in the order they have in [l]. *)
Definition stable_sorted (l r : list string) : Prop :=
  Permutation l r /\
  StronglySorted px_le r /\
  forall k, filter (same_size k) r = filter (same_size k) l.

(** ** The generated variables *)

(** The (name, value) pairs a [forEach] of [generateVariablesFile] writes,
    in order, [index] being the index of the first. *)
Fixpoint named (name : string -> nat -> string) (xs : list string)
  (index : nat) : list (string * string) :=
  match xs with
  | [] => []
  | x :: xs' => (name x index, x) :: named name xs' (S index)
  end.

Definition color_variables (vars : variables) : list (string * string) :=
  named color_name (colors vars) 0.

Definition spacing_variables (vars : variables) : list (string * string) :=
  named (spacing_name (spacing vars)) (spacing vars) 0.

Definition breakpoint_variables (vars : variables) : list (string * string) :=
  named (fun val _ => breakpoint_name val) (breakpoints vars) 0.

(** The assignment lines of a list of pairs, one after the other. *)
Fixpoint render (nvs : list (string * string)) : string :=
  match nvs with
  | [] => ""
  | (n, v) :: rest => assignment n v ++ render rest
  end.

(** A line of the file without its line feed. *)
Definition assignment_line (nv : string * string) : string :=
  "$" ++ fst nv ++ ": " ++ snd nv ++ ";".

(** The text cut at its line feeds: the lines a line feed ends, and what
    follows the last line feed if anything does. *)
Fixpoint lines (s : string) : list string :=
  match s with
  | "" => []
  | String c s' =>
      if Ascii.eqb c nl_char then "" :: lines s'
      else
        match lines s' with
        | [] => [String c ""]
        | l :: ls => String c l :: ls
        end
  end.

(** [s] holds no line feed. *)
Definition one_line (s : string) : Prop :=
  all_chars (fun c => negb (Ascii.eqb c nl_char)) s = true.

(** ** Stylesheets used as examples *)

Module Examples.

(** [a { color: #FFFFFF; background: #ffffff }] *)
Definition two_whites : parsedCSS :=
  ParsedCSS [rule [decl "color" "#FFFFFF"; decl "background" "#ffffff"]].

(** [a { margin: 5px; padding: 6px }] *)
Definition five_six : parsedCSS :=
  ParsedCSS [rule [decl "margin" "5px"; decl "padding" "6px"]].

(** A rule whose [color] declaration carries no [value] field. *)
Definition valueless : parsedCSS :=
  ParsedCSS [rule [Declaration "declaration" (Some "color") None]].

(** [@media (max-width: 600px) { a { margin: 8px } }] *)
Definition nested_margin : parsedCSS :=
  ParsedCSS [media_rule "(max-width: 600px)" [rule [decl "margin" "8px"]]].

(** [a { margin: 8px; padding: 08px }] *)
Definition leading_zero : parsedCSS :=
  ParsedCSS [rule [decl "margin" "8px"; decl "padding" "08px"]].

(** [a { margin: 8px 0 8px 0; padding: 16px 16px 16px 16px }] *)
Definition margin_padding : parsedCSS :=
  ParsedCSS [rule [decl "margin" "8px 0 8px 0";
                   decl "padding" "16px 16px 16px 16px"]].

(** An [rgb(...)] colour written over two lines. *)
Definition broken_rgb : string := "rgb(0," ++ nl ++ "0,0)".
Definition two_line_color : parsedCSS :=
  ParsedCSS [rule [decl "color" broken_rgb]].

(** A rule with a comment, a display declaration, a colour that matches
    nothing, and a media rule. *)
Definition mixed : parsedCSS :=
  ParsedCSS [rule [Declaration "comment" None None;
                   decl "display" "block";
                   decl "color" "red";
                   decl "margin" "1em";
                   decl "border" "1px solid #e6ac55"];
             media_rule "(max-width: 600px)" []].

End Examples.

Import Examples.

(** ** Predicates of the statements *)

(** Every member of type [declaration] of a top-level rule carries a value
    string and every top-level media rule a condition string, as in the
    trees the parser builds. *)
Definition carries_values (css : parsedCSS) : Prop :=
  Forall (fun r =>
            (type r = "media" -> media r <> None) /\
            Forall (fun d => decl_type d = "declaration" -> value d <> None)
                   (scanned_declarations r))
         (stylesheet_rules css).

(** [m] is the first [px] token of [s]: it occurs in [s], and no [px] token
    starts at an earlier position. *)
Definition first_px_token (m s : string) : Prop :=
  exists pre post,
    s = pre ++ m ++ post /\ px_token m /\
    forall a b t rest,
      pre = a ++ b -> b <> "" -> px_token t -> b ++ m ++ post <> t ++ rest.

(** What a run of [extractVariables] may return when nothing is assumed of
    [Array.prototype.sort] beyond its contract: the sets of the traversal,
    the two sorted ones in some stable ascending arrangement. *)
Definition run_outcome (css : parsedCSS) (vars : variables) : Prop :=
  exists st,
    scan css = Normal st /\
    colors vars = set_colors st /\
    stable_sorted (set_spacing st) (spacing vars) /\
    stable_sorted (set_breakpoints st) (breakpoints vars).

Ltac settle_bucket :=
  repeat split; intros; try reflexivity; try discriminate; try lia.

(** * The rest of the scripts *)

(** ** [generateMainFile] (convert-to-scss.js) *)

(** The double quote of the import lines. *)
Definition dq : string := String (ascii_of_nat 34) "".

(** [s.charAt(0)] *)
Definition charAt0 (s : string) : string :=
  match s with
  | "" => ""
  | String c _ => String c ""
  end.

(** [s.slice(1)] *)
Definition slice1 (s : string) : string :=
  match s with
  | "" => ""
  | String _ r => r
  end.

(** Lines 254-255: the two lines a directory adds to the text.
    [String.prototype.toUpperCase] is taken as given. *)
Definition import_section (toUpperCase : string -> string)
  (imports dir : string) : string :=
  let imports :=
    imports ++ "// " ++ (toUpperCase (charAt0 dir) ++ slice1 dir) ++ nl in
  let imports :=
    imports ++ "@import " ++ dq ++ dir ++ "/**/*" ++ dq ++ ";" ++ nl ++ nl in
  imports.

(** Lines 242-259. *)
Definition generateMainFile (toUpperCase : string -> string)
  (dirs : list string) : string :=
  let imports := "// Main SCSS File" ++ nl ++ nl in
  let imports := imports ++ "// Base styles" ++ nl in
  let imports :=
    imports ++ "@import " ++ dq ++ "base/variables" ++ dq ++ ";" ++ nl in
  let imports :=
    imports ++ "@import " ++ dq ++ "base/mixins" ++ dq ++ ";" ++ nl in
  let imports :=
    imports ++ "@import " ++ dq ++ "base/reset" ++ dq ++ ";" ++ nl in
  let imports :=
    imports ++ "@import " ++ dq ++ "base/typography" ++ dq ++ ";" ++ nl ++ nl in
  fold_left (import_section toUpperCase)
            (filter (fun dir => negb (dir =? "base")) dirs) imports.

(** The text in front of the directory sections. *)
Definition main_header : string :=
  "// Main SCSS File" ++ nl ++ nl ++
  "// Base styles" ++ nl ++
  "@import " ++ dq ++ "base/variables" ++ dq ++ ";" ++ nl ++
  "@import " ++ dq ++ "base/mixins" ++ dq ++ ";" ++ nl ++
  "@import " ++ dq ++ "base/reset" ++ dq ++ ";" ++ nl ++
  "@import " ++ dq ++ "base/typography" ++ dq ++ ";" ++ nl ++ nl.

(** The section of one directory: its capitalised name as a comment, its
    wildcard import and a blank line. *)
Definition main_section (toUpperCase : string -> string) (dir : string)
  : string :=
  "// " ++ (toUpperCase (charAt0 dir) ++ slice1 dir) ++ nl ++
  "@import " ++ dq ++ dir ++ "/**/*" ++ dq ++ ";" ++ nl ++ nl.

Fixpoint concat_text (parts : list string) : string :=
  match parts with
  | [] => ""
  | p :: rest => p ++ concat_text rest
  end.

(** [toUpperCase] on a string of ASCII characters. *)
Definition ascii_upper (c : ascii) : ascii :=
  let n := nat_of_ascii c in
  if ((97 <=? n) && (n <=? 122))%nat then ascii_of_nat (n - 32) else c.

Fixpoint ascii_toUpperCase (s : string) : string :=
  match s with
  | "" => ""
  | String c r => String (ascii_upper c) (ascii_toUpperCase r)
  end.

(** ** [findPatterns] (analyze.js) *)

(** [\s], and the characters [trim] removes: tab to carriage return, space
    and no-break space.  The text is taken to hold no code unit above 255,
    where the other white space of JavaScript lies. *)
Definition is_space (c : ascii) : bool :=
  let n := nat_of_ascii c in
  (((9 <=? n) && (n <=? 13)) || (n =? 32) || (n =? 160))%nat.

(** [[:-]] *)
Definition colon_or_hyphen (c : ascii) : bool :=
  Ascii.eqb c ":" || Ascii.eqb c "-".

(** [[^\}]] *)
Definition not_rbrace (c : ascii) : bool := negb (Ascii.eqb c "}").

(** A piece of a pattern, tried at the start of a string: the text it
    matches and what follows. *)
Definition item : Type := string -> option (string * string).

(** A literal. *)
Definition lit (p : string) : item :=
  fun s =>
    match strip_prefix p s with
    | Some r => Some (p, r)
    | None => None
    end.

(** One character of a class. *)
Definition one_of (cls : ascii -> bool) : item :=
  fun s =>
    match s with
    | String c r => if cls c then Some (String c "", r) else None
    | "" => None
    end.

(** A greedy [cls*]. *)
Definition star (cls : ascii -> bool) : item := fun s => Some (span cls s).

(** A greedy [cls+]. *)
Definition plus (cls : ascii -> bool) : item :=
  fun s =>
    let (a, r) := span cls s in
    if (1 <=? String.length a)%nat then Some (a, r) else None.

(** Pieces in sequence.  In the three patterns of [findPatterns] every
    repeated class excludes the character the next piece starts with, so a
    greedy repetition never has to give characters back. *)
Fixpoint seq (items : list item) : item :=
  fun s =>
    match items with
    | [] => Some ("", s)
    | i :: rest =>
        match i s with
        | None => None
        | Some (a, r) =>
            match seq rest r with
            | None => None
            | Some (b, r') => Some (a ++ b, r')
            end
        end
    end.

(** [\s*([\d]+px)] *)
Definition px_length : list item := [star is_space; plus is_digit; lit "px"].

(** [/margin[:-]\s*([\d]+px)\s*([\d]+px)\s*([\d]+px)\s*([\d]+px)/] and its
    [padding] twin, anchored at the start of the string. *)
Definition box_at (name : string) : item :=
  seq (lit name :: one_of colon_or_hyphen ::
       px_length ++ px_length ++ px_length ++ px_length)%list.

(** [/@media\s*\([^\)]+\)\s*\{[^\}]+\}/] anchored at the start of the
    string. *)
Definition media_at : item :=
  seq [lit "@media"; star is_space; lit "("; plus not_rparen; lit ")";
       star is_space; lit "{"; plus not_rbrace; lit "}"].

(** The leftmost match of a pattern: the text in front of it, the match and
    what follows. *)
Fixpoint find_first (pat : item) (s : string)
  : option (string * string * string) :=
  match pat s with
  | Some (m, r) => Some ("", m, r)
  | None =>
      match s with
      | "" => None
      | String c s' =>
          match find_first pat s' with
          | Some (pre, m, r) => Some (String c pre, m, r)
          | None => None
          end
      end
  end.

(** [while ((match = regex.exec(css)) !== null)] with a [g] pattern: each
    search starts where the previous match ended.  [fuel] bounds the number
    of matches. *)
Fixpoint exec_loop (fuel : nat) (pat : item) (s : string) : list string :=
  match fuel with
  | 0 => []
  | S fuel' =>
      match find_first pat s with
      | Some (_, m, r) => m :: exec_loop fuel' pat r
      | None => []
      end
  end.

(** All the matches of a pattern in a text: a text of [n] characters has at
    most [n] matches that are not empty. *)
Definition exec_all (pat : item) (s : string) : list string :=
  exec_loop (S (String.length s)) pat s.

(** [obj[key] = (obj[key] || 0) + 1] on an object whose keys are listed in
    the order they were added.  The keys of [findPatterns] start with
    [margin], [padding] or [@media]: none is an array index, which would
    be listed first, or a name inherited from [Object.prototype]. *)
Fixpoint bump (key : string) (obj : list (string * nat))
  : list (string * nat) :=
  match obj with
  | [] => [(key, 0 + 1)]
  | (k, n) :: rest =>
      if k =? key then (k, n + 1) :: rest else (k, n) :: bump key rest
  end.

(** The object at the end of a counting loop. *)
Definition tally (keys : list string) : list (string * nat) :=
  fold_left (fun obj key => bump key obj) keys [].

(** The comparator [(a, b) => b[1] - a[1]], read by its sign. *)
Definition by_count_desc (a b : string * nat) : comparison :=
  Nat.compare (snd b) (snd a).

(** The stable sort of [Array.prototype.sort], on entries. *)
Fixpoint insert_entry (x : string * nat) (l : list (string * nat))
  : list (string * nat) :=
  match l with
  | [] => [x]
  | y :: l' =>
      match by_count_desc x y with
      | Gt => y :: insert_entry x l'
      | _ => x :: l
      end
  end.

Definition sort_entries (l : list (string * nat)) : list (string * nat) :=
  fold_right insert_entry [] l.

(** [`  ${pattern}: ${count} times`] *)
Definition times_line (e : string * nat) : string :=
  "  " ++ fst e ++ ": " ++ index_to_string (snd e) ++ " times".

(** [Object.entries(obj).sort(...).slice(0, 5)] *)
Definition top5 (obj : list (string * nat)) : list (string * nat) :=
  firstn 5 (sort_entries obj).

(** [s.split('{')[0]] *)
Fixpoint before_brace (s : string) : string :=
  match s with
  | "" => ""
  | String c r => if Ascii.eqb c "{" then "" else String c (before_brace r)
  end.

(** [s.trim()] *)
Fixpoint trim_end (s : string) : string :=
  match s with
  | "" => ""
  | String c r =>
      let r' := trim_end r in
      if is_space c && (r' =? "") then "" else String c r'
  end.

Definition trim (s : string) : string := trim_end (snd (span is_space s)).

(** Line 112. *)
Definition media_query_key (m : string) : string := trim (before_brace m).

(** Lines 117-118: [Object.entries(mediaQueries).filter(([_, count]) =>
    count > 2)]. *)
Definition duplicated (obj : list (string * nat)) : list (string * nat) :=
  filter (fun e => (2 <? snd e)%nat) obj.

(** Lines 72-122: the lines [findPatterns] hands to [console.log], one
    string for each call. *)
Definition findPatterns (css : string) : list string :=
  let marginMatches := tally (exec_all (box_at "margin") css) in
  let paddingMatches := tally (exec_all (box_at "padding") css) in
  let margin_log :=
    ("Common margin patterns:" :: map times_line (top5 marginMatches))%list in
  let padding_log :=
    ("Common padding patterns:" :: map times_line (top5 paddingMatches))%list in
  let mediaQueries :=
    tally (map media_query_key (exec_all media_at css)) in
  let media_log :=
    ((nl ++ "Duplicated media queries:")%string ::
     map times_line (duplicated mediaQueries))%list in
  (margin_log ++ padding_log ++ media_log)%list.

(** ** Predicates of the further properties *)

(** The nodes the traversal looks into. *)
Definition rule_or_media (r : node) : bool :=
  (type r =? "rule") || (type r =? "media").

(** The node without the rules nested in it. *)
Definition without_children (r : node) : node :=
  Node (type r) (declarations r) (media r) [].

(** [variables.spacing.filter(s => parseInt(s) === size).length > 1]: the
    test of line 166. *)
Definition has_twin (all : list string) (val : string) : bool :=
  (1 <? List.length (filter (fun s => num_eq (parseInt s) (parseInt val)) all))%nat.

Ltac split_cases H := repeat (destruct H as [H|H]); try contradiction.

(** What a piece matches is a prefix of the string it is tried on. *)
Definition splits (i : item) : Prop :=
  forall s m r, i s = Some (m, r) -> s = m ++ r.

(** [ms] are the successive matches of [pat] in [s]: each is the leftmost
    match in what the previous one left, and nothing matches after the
    last. *)
Inductive successive (pat : item) : string -> list string -> Prop :=
| successive_none s :
    (forall pre r, s = pre ++ r -> pat r = None) ->
    successive pat s []
| successive_match pre m r ms :
    (forall a b, pre = a ++ b -> b <> "" -> pat (b ++ m ++ r) = None) ->
    pat (m ++ r) = Some (m, r) ->
    successive pat r ms ->
    successive pat (pre ++ m ++ r) (m :: ms).

(** [obj[key] || 0] *)
Definition count_of (key : string) (obj : list (string * nat)) : nat :=
  match find (fun e => fst e =? key) obj with
  | Some e => snd e
  | None => 0
  end.

(** [a] comes up at least as often as [b]. *)
Definition at_least_as_often (a b : string * nat) : Prop := snd b <= snd a.

(** Optional white space, one or more digits and [px]. *)
Definition px_length_text (t : string) : Prop :=
  exists w d,
    t = w ++ d ++ "px" /\ all_chars is_space w = true /\
    all_chars is_digit d = true /\ 1 <= String.length d.

(** The property name, a colon or a hyphen, and four [px] lengths. *)
Definition box_text (name m : string) : Prop :=
  exists sep t1 t2 t3 t4,
    m = name ++ sep ++ t1 ++ t2 ++ t3 ++ t4 /\
    (sep = ":" \/ sep = "-") /\
    px_length_text t1 /\ px_length_text t2 /\
    px_length_text t3 /\ px_length_text t4.

(** The place of a bucket in a list of buckets. *)
Fixpoint position (b : string) (order : list string) : nat :=
  match order with
  | [] => 0
  | x :: rest => if x =? b then 0 else S (position b rest)
  end.

Definition spacing_order : list string :=
  ["none"; "xs"; "sm"; "md"; "lg"; "xl"; "xxl"].

Definition breakpoint_order : list string :=
  ["mobile"; "tablet"; "desktop"; "widescreen"; "ultrawide"].

(** * Proofs *)

(** ** The regular expressions on sample values *)

Example match_px_margin : match_px "8px 0 8px 0" = Some "8px".
Proof. reflexivity. Qed.

Example match_px_media : match_px "(max-width: 600px)" = Some "600px".
Proof. reflexivity. Qed.

Example match_px_none : match_px "1em 2 px" = None.
Proof. reflexivity. Qed.

Example match_color_hex : match_color "1px solid #e6ac55ff" = Some "#e6ac55".
Proof. reflexivity. Qed.

Example match_color_short : match_color "#ab #abcd" = Some "#abcd".
Proof. reflexivity. Qed.

Example match_color_rgba :
  match_color "rgb() rgba(0, 0, 0, 0.5) x" = Some "rgba(0, 0, 0, 0.5)".
Proof. reflexivity. Qed.

Example parseInt_px : parseInt "016px" = Some 16%N.
Proof. reflexivity. Qed.

Example parseInt_round :
  parseInt "9007199254740993px" = Some 9007199254740992%N.
Proof. vm_compute. reflexivity. Qed.

Example index_to_string_10 : index_to_string 10 = "10".
Proof. reflexivity. Qed.

(** ** Strings *)

Section StringFacts.

Lemma append_nil_r (s : string) : s ++ "" = s.
Proof. induction s as [|c s IH]; simpl; [reflexivity | now rewrite IH]. Qed.

Lemma append_assoc (a b c : string) : (a ++ b) ++ c = a ++ (b ++ c).
Proof. induction a as [|x a IH]; simpl; [reflexivity | now rewrite IH]. Qed.

Lemma length_append (a b : string) :
  String.length (a ++ b) = String.length a + String.length b.
Proof. induction a as [|x a IH]; simpl; [reflexivity | now rewrite IH]. Qed.

Lemma all_chars_cons p c s :
  all_chars p (String c s) = p c && all_chars p s.
Proof. reflexivity. Qed.

Lemma all_chars_append p a b :
  all_chars p (a ++ b) = all_chars p a && all_chars p b.
Proof.
  induction a as [|x a IH]; simpl; [reflexivity|].
  rewrite !all_chars_cons, IH. now rewrite andb_assoc.
Qed.

(** What [span] returns: the two parts make up the string, the first lies in
    the class, and the second does not start in it. *)
Lemma span_spec p s a b :
  span p s = (a, b) ->
  s = a ++ b /\ all_chars p a = true /\
  match b with "" => True | String c _ => p c = false end.
Proof.
  revert a b. induction s as [|c s IH]; simpl; intros a b H.
  - inversion H; subst. auto.
  - destruct (p c) eqn:Hc.
    + destruct (span p s) as [a' b'] eqn:Hs. inversion H; subst.
      destruct (IH a' b eq_refl) as (-> & Ha & Hb).
      rewrite all_chars_cons, Hc, Ha. auto.
    + inversion H; subst. simpl. auto.
Qed.

(** Conversely, a run in the class followed by a character outside it is
    what [span] cuts off. *)
Lemma span_append p a b :
  all_chars p a = true ->
  match b with "" => True | String c _ => p c = false end ->
  span p (a ++ b) = (a, b).
Proof.
  intros Ha Hb. induction a as [|x a IH]; simpl.
  - destruct b as [|c b]; simpl; [reflexivity | now rewrite Hb].
  - rewrite all_chars_cons in Ha. apply andb_prop in Ha as [Hx Ha].
    rewrite Hx, (IH Ha). reflexivity.
Qed.

Lemma span_upto_spec n p s :
  String.length (span_upto n p s) <= n /\
  all_chars p (span_upto n p s) = true.
Proof.
  revert s. induction n as [|n IH]; intros [|c s]; simpl; auto with arith.
  destruct (p c) eqn:Hc; simpl; auto with arith.
  destruct (IH s) as [Hl Ha]. rewrite all_chars_cons, Hc, Ha.
  split; [lia | reflexivity].
Qed.

Lemma strip_prefix_spec p s r : strip_prefix p s = Some r -> s = p ++ r.
Proof.
  revert s. induction p as [|a p IH]; intros [|b s]; simpl; try congruence.
  destruct (Ascii.eqb_spec a b) as [->|]; [|discriminate].
  intros H. now rewrite (IH _ H).
Qed.

Lemma prefix_spec p s : prefix p s = true -> exists r, s = p ++ r.
Proof.
  revert s. induction p as [|a p IH]; intros s; simpl.
  - exists s. reflexivity.
  - destruct s as [|b s]; simpl; [discriminate|].
    destruct (ascii_dec a b) as [->|]; [|discriminate].
    intros H. destruct (IH _ H) as [r ->]. now exists r.
Qed.

Lemma prefix_append p r : prefix p (p ++ r) = true.
Proof.
  induction p as [|a p IH]; simpl; [now destruct r|].
  destruct (ascii_dec a a); [assumption | congruence].
Qed.

Lemma occurs_in_cons m c s : occurs_in m s -> occurs_in m (String c s).
Proof. intros (pre & post & ->). now exists (String c pre), post. Qed.

End StringFacts.

(** ** A match is a token *)

Section Tokens.

Lemma px_at_token s m : px_at s = Some m -> px_token m /\ occurs_in m s.
Proof.
  unfold px_at. destruct (span is_digit s) as [ds rest] eqn:Hs.
  destruct (1 <=? String.length ds)%nat eqn:Hl; simpl; [|discriminate].
  destruct (prefix "px" rest) eqn:Hp; [|discriminate].
  intros H; inversion H; subst; clear H.
  apply span_spec in Hs as (-> & Hd & _).
  apply Nat.leb_le in Hl. split.
  - now exists ds.
  - apply prefix_spec in Hp as [r ->]. exists "", r.
    simpl. now rewrite append_assoc.
Qed.

Lemma match_px_token s m : match_px s = Some m -> px_token m /\ occurs_in m s.
Proof.
  induction s as [|c s IH]; simpl.
  - discriminate.
  - destruct (px_at (String c s)) eqn:E.
    + intros H; inversion H; subst. now apply px_at_token.
    + intros H. destruct (IH H) as [Ht Ho]. split; [assumption|].
      now apply occurs_in_cons.
Qed.

Lemma span_upto_prefix n p s : exists t, s = span_upto n p s ++ t.
Proof.
  revert s. induction n as [|n IH]; intros [|c s]; simpl;
    try (eexists; reflexivity).
  destruct (p c); [|eexists; reflexivity].
  destruct (IH s) as [t Ht]. exists t. simpl. now rewrite <- Ht.
Qed.

Lemma hex_at_token s m : hex_at s = Some m -> hex_color m /\ occurs_in m s.
Proof.
  destruct s as [|c r]; [discriminate|].
  destruct c as [[] [] [] [] [] [] [] []]; try discriminate.
  unfold hex_at.
  destruct (3 <=? String.length (span_upto 6 is_hex r))%nat eqn:Hl;
    [|discriminate].
  intros H; inversion H; subst; clear H. apply Nat.leb_le in Hl.
  destruct (span_upto_spec 6 is_hex r) as [Hn Ha]. split.
  - exists (span_upto 6 is_hex r). auto.
  - destruct (span_upto_prefix 6 is_hex r) as [t Ht].
    exists "", t. simpl. now f_equal.
Qed.

Lemma rgb_at_token s m : rgb_at s = Some m -> rgb_color m /\ occurs_in m s.
Proof.
  unfold rgb_at. destruct (strip_prefix "rgb" s) as [r|] eqn:Hr; [|discriminate].
  apply strip_prefix_spec in Hr. subst s.
  assert (Hbody : forall head r1,
    (head = "rgb(" \/ head = "rgba(") -> "rgb" ++ r = head ++ r1 ->
    (let (body, r2) := span not_rparen r1 in
     if (1 <=? String.length body)%nat && prefix ")" r2
     then Some (head ++ body ++ ")") else None) = Some m ->
    rgb_color m /\ occurs_in m ("rgb" ++ r)).
  { intros head r1 Hh Heq.
    destruct (span not_rparen r1) as [body r2] eqn:Hs.
    destruct (1 <=? String.length body)%nat eqn:Hl; simpl; [|discriminate].
    destruct (prefix ")" r2) eqn:Hp; [|discriminate].
    intros H; inversion H; subst m; clear H.
    apply span_spec in Hs as (-> & Hb & _). apply Nat.leb_le in Hl.
    apply prefix_spec in Hp as [t ->]. split.
    - exists body. destruct Hh as [-> | ->]; auto.
    - exists "", t. change ("rgb" ++ r = (head ++ body ++ ")") ++ t).
      rewrite Heq. now rewrite !append_assoc. }
  destruct (strip_prefix "a(" r) as [r1|] eqn:Ha.
  - apply strip_prefix_spec in Ha. subst r.
    apply (Hbody "rgba(" r1); auto.
  - destruct (strip_prefix "(" r) as [r1|] eqn:Hb; [|discriminate].
    apply strip_prefix_spec in Hb. subst r.
    apply (Hbody "rgb(" r1); auto.
Qed.

Lemma color_at_token s m : color_at s = Some m -> color_token m /\ occurs_in m s.
Proof.
  unfold color_at, color_token. destruct (hex_at s) eqn:Hh.
  - intros H; inversion H; subst. apply hex_at_token in Hh. tauto.
  - intros H. apply rgb_at_token in H. tauto.
Qed.

Lemma match_color_token s m :
  match_color s = Some m -> color_token m /\ occurs_in m s.
Proof.
  induction s as [|c s IH]; simpl.
  - discriminate.
  - destruct (color_at (String c s)) eqn:E.
    + intros H; inversion H; subst. now apply color_at_token.
    + intros H. destruct (IH H) as [Ht Ho]. split; [assumption|].
      now apply occurs_in_cons.
Qed.

(** [parseInt] of a [px] token is a number, never NaN. *)
Lemma parseInt_px_token m :
  px_token m -> exists n, parseInt m = Some n.
Proof.
  intros (ds & -> & Hl & Hd). unfold parseInt.
  rewrite (span_append is_digit ds "px" Hd) by reflexivity.
  destruct ds; simpl in *; [lia|]. eexists. reflexivity.
Qed.

(** Below [2^53] the number is the integer the digits spell. *)
Lemma parseInt_exact ds :
  all_chars is_digit ds = true -> 1 <= String.length ds ->
  (digits_value ds < two53)%N ->
  parseInt (ds ++ "px") = Some (digits_value ds).
Proof.
  intros Hd Hl Hlt. unfold parseInt.
  rewrite (span_append is_digit ds "px" Hd) by reflexivity.
  destruct ds; simpl in Hl; [lia|]. cbn [String.length Nat.eqb].
  unfold toNumber. apply N.ltb_lt in Hlt. now rewrite Hlt.
Qed.

End Tokens.

(** ** Sets in insertion order *)

Section SetFacts.

Lemma existsb_eqb_In x s : existsb (String.eqb x) s = true <-> In x s.
Proof.
  rewrite existsb_exists. split.
  - intros (y & Hy & E). apply String.eqb_eq in E. now subst.
  - intros H. exists x. split; [assumption | apply String.eqb_refl].
Qed.

Lemma set_add_In x y s : In y (set_add x s) <-> y = x \/ In y s.
Proof.
  unfold set_add. destruct (existsb (String.eqb x) s) eqn:E.
  - apply existsb_eqb_In in E. split; [auto | intros [->|]; assumption].
  - rewrite in_app_iff. simpl. intuition congruence.
Qed.

Lemma set_add_NoDup x s : NoDup s -> NoDup (set_add x s).
Proof.
  intros H. unfold set_add. destruct (existsb (String.eqb x) s) eqn:E;
    [assumption|].
  assert (Hx : ~ In x s).
  { intros Hin. apply existsb_eqb_In in Hin. congruence. }
  clear E. induction H as [|y s Hy Hs IH]; simpl.
  - constructor; [intros [] | constructor].
  - constructor.
    + rewrite in_app_iff. simpl. intros [H|[H|[]]]; [auto|].
      subst. apply Hx. now left.
    + apply IH. intros H. apply Hx. now right.
Qed.

Lemma add_all_In l : forall s y, In y (add_all l s) <-> In y l \/ In y s.
Proof.
  induction l as [|x l IH]; simpl; intros s y; [tauto|].
  unfold add_all in *. simpl. rewrite IH, set_add_In. intuition congruence.
Qed.

Lemma add_all_NoDup l : forall s, NoDup s -> NoDup (add_all l s).
Proof.
  induction l as [|x l IH]; simpl; intros s H; [assumption|].
  apply IH. now apply set_add_NoDup.
Qed.

Lemma add_all_app l1 l2 s :
  add_all (l1 ++ l2)%list s = add_all l2 (add_all l1 s).
Proof. apply fold_left_app. Qed.

Lemma filter_ext_in' {A} (f g : A -> bool) l :
  (forall x, In x l -> f x = g x) -> filter f l = filter g l.
Proof.
  induction l as [|x l IH]; simpl; intros H; [reflexivity|].
  rewrite (H x) by now left. rewrite IH; [reflexivity|].
  intros y Hy. apply H. now right.
Qed.

Lemma filter_filter {A} (f g : A -> bool) l :
  filter f (filter g l) = filter (fun x => g x && f x) l.
Proof.
  induction l as [|x l IH]; simpl; [reflexivity|].
  destruct (g x); simpl; [destruct (f x)|]; now rewrite IH.
Qed.

(** A set built by successive [add]s lists the strings in the order of
    their first occurrence. *)
Lemma add_all_first_occurrences l : forall s,
  add_all l s =
  (s ++ filter (fun y => negb (existsb (String.eqb y) s))
               (first_occurrences l))%list.
Proof.
  induction l as [|x l IH]; intros s; simpl.
  - now rewrite app_nil_r.
  - unfold add_all in *. simpl. rewrite IH. unfold set_add.
    destruct (existsb (String.eqb x) s) eqn:E; simpl.
    + f_equal. rewrite filter_filter. apply filter_ext_in'.
      intros y _. destruct (String.eqb_spec y x) as [->|]; simpl;
        [now rewrite E | reflexivity].
    + rewrite <- app_assoc. simpl. do 2 f_equal.
      rewrite filter_filter. apply filter_ext_in'. intros y _.
      rewrite existsb_app. simpl. rewrite orb_false_r, negb_orb.
      apply andb_comm.
Qed.

Lemma add_all_nil l : add_all l [] = first_occurrences l.
Proof.
  rewrite add_all_first_occurrences. simpl.
  induction (first_occurrences l) as [|y t IH]; simpl; [reflexivity|].
  now rewrite IH.
Qed.

Lemma first_occurrences_In l y : In y (first_occurrences l) <-> In y l.
Proof. rewrite <- add_all_nil, add_all_In. simpl. tauto. Qed.

Lemma first_occurrences_NoDup l : NoDup (first_occurrences l).
Proof. rewrite <- add_all_nil. apply add_all_NoDup. constructor. Qed.

Lemma hits_app {A} (f : A -> option string) l1 l2 :
  hits f (l1 ++ l2)%list = (hits f l1 ++ hits f l2)%list.
Proof. apply flat_map_app. Qed.

Lemma hits_In {A} (f : A -> option string) l m :
  In m (hits f l) <-> exists x, In x l /\ f x = Some m.
Proof.
  unfold hits. rewrite in_flat_map. split; intros (x & Hx & H); exists x;
    (split; [assumption|]).
  - destruct (f x); simpl in H; [destruct H as [->|[]]; reflexivity | tauto].
  - rewrite H. now left.
Qed.

End SetFacts.

(** ** The traversal computes the discovered tokens *)

Section Traversal.

(** A loop over a list in two parts is the loop over the first part
    followed by the loop over the second. *)
Lemma forEach_app {A S} (body : S -> A -> completion S) xs ys : forall s,
  forEach body (xs ++ ys)%list s =
  (s' <- forEach body xs s ;; forEach body ys s').
Proof.
  induction xs as [|x xs IH]; intros s; simpl; [reflexivity|].
  destruct (body s x) as [t|]; simpl; [apply IH | reflexivity].
Qed.

(** A loop throws exactly when the body throws on some element, provided
    that does not depend on the state. *)
Lemma forEach_throws {A S} (body : S -> A -> completion S) (bad : A -> bool) :
  (forall s x, body s x = Throw <-> bad x = true) ->
  forall xs s, forEach body xs s = Throw <-> existsb bad xs = true.
Proof.
  intros Hbad. induction xs as [|x xs IH]; simpl; intros s.
  - split; discriminate.
  - rewrite orb_true_iff, <- (Hbad s x).
    destruct (body s x) as [t|] eqn:Hb; simpl.
    + rewrite IH. split; [auto | intros [H|H]; [discriminate | assumption]].
    + tauto.
Qed.

Lemma hits_one {A} (f : A -> option string) x : hits f [x] = opt_list (f x).
Proof. unfold hits. simpl. now rewrite app_nil_r. Qed.

Lemma visit_declaration_sets st d st' :
  visit_declaration st d = Normal st' ->
  st' = Sets (add_all (opt_list (color_hit d)) (set_colors st))
             (add_all (opt_list (spacing_hit d)) (set_spacing st))
             (set_breakpoints st).
Proof.
  unfold visit_declaration, extract_color, extract_spacing, color_hit,
    spacing_hit.
  destruct st as [cs ss bs], d as [ty p v]; simpl.
  destruct (ty =? "declaration"); simpl;
    [|intros H; inversion H; reflexivity].
  destruct (has_any p color_keys), (has_any p spacing_keys), v as [v|];
    simpl; try discriminate;
    try destruct (match_color v); try destruct (match_px v); simpl;
    intros H; inversion H; reflexivity.
Qed.

Lemma visit_declaration_throws st d :
  visit_declaration st d = Throw <-> raises_declaration d = true.
Proof.
  unfold visit_declaration, extract_color, extract_spacing,
    raises_declaration.
  destruct st as [cs ss bs], d as [ty p v]; simpl.
  destruct (ty =? "declaration"); simpl; [|split; discriminate].
  destruct (has_any p color_keys), (has_any p spacing_keys), v as [v|];
    simpl; try destruct (match_color v); try destruct (match_px v); simpl;
    split; (discriminate || reflexivity).
Qed.

Lemma forEach_declarations_sets ds : forall st st',
  forEach visit_declaration ds st = Normal st' ->
  st' = Sets (add_all (hits color_hit ds) (set_colors st))
             (add_all (hits spacing_hit ds) (set_spacing st))
             (set_breakpoints st).
Proof.
  induction ds as [|d ds IH]; intros st st' H; cbn [forEach] in H.
  - inversion H; subst. now destruct st'.
  - destruct (visit_declaration st d) as [t|] eqn:Hd; cbn [bind] in H;
      [|discriminate].
    apply visit_declaration_sets in Hd. apply IH in H. subst st' t.
    cbn [set_colors set_spacing set_breakpoints].
    change (d :: ds) with ([d] ++ ds)%list.
    now rewrite !hits_app, !add_all_app, !hits_one.
Qed.

Lemma visit_rule_sets st r st' :
  visit_rule st r = Normal st' ->
  st' = Sets (add_all (hits color_hit (scanned_declarations r)) (set_colors st))
             (add_all (hits spacing_hit (scanned_declarations r))
                      (set_spacing st))
             (add_all (opt_list (breakpoint_hit r)) (set_breakpoints st)).
Proof.
  unfold visit_rule, scanned_declarations, extract_breakpoint, breakpoint_hit.
  set (inner := match type r =? "rule", declarations r with
                | true, Some ds => forEach visit_declaration ds st
                | _, _ => Normal st
                end).
  assert (Hin : forall t, inner = Normal t ->
    t = Sets (add_all (hits color_hit
                 match type r =? "rule", declarations r with
                 | true, Some ds => ds | _, _ => [] end) (set_colors st))
             (add_all (hits spacing_hit
                 match type r =? "rule", declarations r with
                 | true, Some ds => ds | _, _ => [] end) (set_spacing st))
             (set_breakpoints st)).
  { subst inner. intros t.
    destruct (type r =? "rule"), (declarations r) as [ds|];
      try (intros H; inversion H; subst; now destruct t).
    apply forEach_declarations_sets. }
  destruct inner as [t|]; simpl; [|discriminate].
  rewrite (Hin t eq_refl). simpl.
  destruct (type r =? "media"); simpl;
    [|intros H; inversion H; reflexivity].
  destruct (media r) as [c|]; [|discriminate].
  destruct (match_px c); simpl; intros H; inversion H; reflexivity.
Qed.

Lemma extract_breakpoint_throws st r :
  extract_breakpoint st r = Throw <->
  (type r =? "media") && match media r with None => true | Some _ => false end
  = true.
Proof.
  unfold extract_breakpoint.
  destruct (type r =? "media"), (media r) as [c|]; simpl;
    try destruct (match_px c); split; (discriminate || reflexivity).
Qed.

Lemma visit_rule_throws st r :
  visit_rule st r = Throw <-> raises_rule r = true.
Proof.
  unfold visit_rule, raises_rule, scanned_declarations.
  rewrite orb_true_iff, <- (extract_breakpoint_throws st).
  assert (Hst : forall t, extract_breakpoint t r = Throw <->
                          extract_breakpoint st r = Throw).
  { intros t. now rewrite !extract_breakpoint_throws. }
  destruct (type r =? "rule"), (declarations r) as [ds|]; simpl;
    try (intuition discriminate).
  rewrite <- (forEach_throws _ _ visit_declaration_throws ds st).
  destruct (forEach visit_declaration ds st) as [t|]; simpl.
  - rewrite Hst. intuition discriminate.
  - tauto.
Qed.

Lemma forEach_rules_sets rs : forall st st',
  forEach visit_rule rs st = Normal st' ->
  st' = Sets (add_all (hits color_hit (flat_map scanned_declarations rs))
                      (set_colors st))
             (add_all (hits spacing_hit (flat_map scanned_declarations rs))
                      (set_spacing st))
             (add_all (hits breakpoint_hit rs) (set_breakpoints st)).
Proof.
  induction rs as [|r rs IH]; intros st st' H; cbn [forEach] in H.
  - inversion H; subst. now destruct st'.
  - destruct (visit_rule st r) as [t|] eqn:Hr; cbn [bind] in H;
      [|discriminate].
    apply visit_rule_sets in Hr. apply IH in H. subst st' t.
    cbn [set_colors set_spacing set_breakpoints flat_map].
    rewrite !hits_app, !add_all_app.
    change (r :: rs) with ([r] ++ rs)%list.
    now rewrite (hits_app breakpoint_hit), add_all_app, hits_one.
Qed.

(** The sets at the end of the traversal: the discovered tokens, each once,
    in the order of first discovery. *)
Lemma scan_sets css st :
  scan css = Normal st ->
  st = Sets (first_occurrences (color_hits css))
            (first_occurrences (spacing_hits css))
            (first_occurrences (breakpoint_hits css)).
Proof.
  intros H. apply forEach_rules_sets in H. simpl in H.
  now rewrite !add_all_nil in H.
Qed.

Lemma scan_throws css :
  scan css = Throw <-> existsb raises_rule (stylesheet_rules css) = true.
Proof. apply forEach_throws. intros s x. apply visit_rule_throws. Qed.

Lemma scan_returns css :
  existsb raises_rule (stylesheet_rules css) = false ->
  exists st, scan css = Normal st.
Proof.
  intros H. destruct (scan css) as [st|] eqn:E; [now exists st|].
  apply scan_throws in E. congruence.
Qed.

End Traversal.

(** ** The sort is ascending and stable *)

Section Sorting.

Lemma insert_sorted_perm cmp x l : Permutation (insert_sorted cmp x l) (x :: l).
Proof.
  induction l as [|y l IH]; simpl; [reflexivity|].
  destruct (cmp x y); try reflexivity.
  rewrite IH. apply perm_swap.
Qed.

Lemma sort_perm cmp l : Permutation (sort cmp l) l.
Proof.
  induction l as [|x l IH]; simpl; [reflexivity|].
  rewrite insert_sorted_perm. now constructor.
Qed.

Lemma sort_In cmp l x : In x (sort cmp l) <-> In x l.
Proof.
  split; apply Permutation_in; [|symmetry]; apply sort_perm.
Qed.

Lemma sort_NoDup cmp l : NoDup l -> NoDup (sort cmp l).
Proof. apply Permutation_NoDup. symmetry. apply sort_perm. Qed.

Lemma sort_Forall (P : string -> Prop) cmp l :
  Forall P l -> Forall P (sort cmp l).
Proof. apply Permutation_Forall. symmetry. apply sort_perm. Qed.

Lemma by_parseInt_Gt x y : by_parseInt x y = Gt -> px_lt y x.
Proof.
  unfold by_parseInt, sub_sign, px_lt.
  destruct (parseInt x) as [a|], (parseInt y) as [b|]; try discriminate.
  intros H. exists b, a. repeat split. now apply N.compare_gt_iff.
Qed.

Lemma by_parseInt_not_Gt x y :
  numeric x -> numeric y -> by_parseInt x y <> Gt -> px_le x y.
Proof.
  unfold by_parseInt, sub_sign, px_le. intros [a ->] [b ->] H.
  exists a, b. repeat split. now apply N.compare_le_iff.
Qed.

Lemma px_lt_le x y : px_lt x y -> px_le x y.
Proof.
  intros (a & b & Ha & Hb & H). exists a, b. repeat split; auto.
  now apply N.lt_le_incl.
Qed.

Lemma px_le_trans x y z : px_le x y -> px_le y z -> px_le x z.
Proof.
  intros (a & b & Ha & Hb & H) (b' & c & Hb' & Hc & H').
  exists a, c. repeat split; auto. rewrite Hb in Hb'. inversion Hb'; subst.
  now apply N.le_trans with b'.
Qed.

Lemma insert_sorted_sorted x l :
  numeric x -> Forall numeric l -> StronglySorted px_le l ->
  StronglySorted px_le (insert_sorted by_parseInt x l).
Proof.
  intros Hx Hl Hs. induction Hs as [|y l Hs IH Hy]; simpl.
  - constructor; constructor.
  - inversion Hl as [|? ? Hny Hnl]; subst.
    destruct (by_parseInt x y) eqn:E.
    + assert (Hxy : px_le x y) by (apply by_parseInt_not_Gt; congruence).
      constructor; [now constructor|]. constructor; [assumption|].
      eapply Forall_impl; [|exact Hy]. intros z. now apply px_le_trans.
    + assert (Hxy : px_le x y) by (apply by_parseInt_not_Gt; congruence).
      constructor; [now constructor|]. constructor; [assumption|].
      eapply Forall_impl; [|exact Hy]. intros z. now apply px_le_trans.
    + constructor; [now apply IH|].
      eapply Permutation_Forall; [symmetry; apply insert_sorted_perm|].
      constructor; [|assumption]. now apply px_lt_le, by_parseInt_Gt.
Qed.

Lemma sort_sorted l :
  Forall numeric l -> StronglySorted px_le (sort by_parseInt l).
Proof.
  induction 1 as [|x l Hx Hl IH]; simpl; [constructor|].
  apply insert_sorted_sorted; auto. now apply sort_Forall.
Qed.

(** Two strings of different number are not both of size [k]. *)
Lemma same_size_lt k x y :
  px_lt y x -> same_size k x = true -> same_size k y = false.
Proof.
  unfold same_size, num_eq. intros (b & a & -> & -> & H).
  destruct k as [k|]; [|discriminate].
  intros E. apply N.eqb_eq in E. subst. apply N.eqb_neq.
  intros ->. now apply N.lt_irrefl in H.
Qed.

(** Inserting [x] moves it past strings of smaller number only. *)
Lemma insert_sorted_filter k x l :
  filter (same_size k) (insert_sorted by_parseInt x l) =
  filter (same_size k) (x :: l).
Proof.
  induction l as [|y l IH]; [reflexivity|].
  cbn [insert_sorted]. destruct (by_parseInt x y) eqn:E; try reflexivity.
  apply by_parseInt_Gt in E. cbn [filter] in *. rewrite IH.
  destruct (same_size k x) eqn:Hx; [|reflexivity].
  now rewrite (same_size_lt k x y E Hx).
Qed.

Lemma sort_filter k l :
  filter (same_size k) (sort by_parseInt l) = filter (same_size k) l.
Proof.
  induction l as [|x l IH]; [reflexivity|].
  cbn [sort fold_right]. rewrite insert_sorted_filter. cbn [filter].
  fold (sort by_parseInt l). now rewrite IH.
Qed.

Lemma sort_stable_sorted l :
  Forall numeric l -> stable_sorted l (sort by_parseInt l).
Proof.
  intros H. split; [symmetry; apply sort_perm|].
  split; [now apply sort_sorted | intros k; apply sort_filter].
Qed.

Lemma same_size_refl s : numeric s -> same_size (parseInt s) s = true.
Proof. intros [n H]. unfold same_size. rewrite H. apply N.eqb_refl. Qed.

(** A list in ascending order is determined by the sub-lists of its strings
    of each number. *)
Lemma sorted_by_groups r1 : forall r2,
  Forall numeric r1 -> Forall numeric r2 ->
  StronglySorted px_le r1 -> StronglySorted px_le r2 ->
  (forall k, filter (same_size k) r1 = filter (same_size k) r2) ->
  r1 = r2.
Proof.
  induction r1 as [|x r1 IH]; intros r2 Hn1 Hn2 Hs1 Hs2 Hf.
  - destruct r2 as [|y r2]; [reflexivity|].
    inversion Hn2 as [|? ? Hy _]; subst.
    specialize (Hf (parseInt y)). cbn [filter] in Hf.
    now rewrite (same_size_refl y Hy) in Hf.
  - inversion Hn1 as [|? ? Hx Hn1']; subst.
    destruct r2 as [|y r2].
    + specialize (Hf (parseInt x)). cbn [filter] in Hf.
      now rewrite (same_size_refl x Hx) in Hf.
    + inversion Hn2 as [|? ? Hy Hn2']; subst.
      inversion Hs1 as [|? ? Hs1' Hx1]; subst.
      inversion Hs2 as [|? ? Hs2' Hy2]; subst.
      assert (Hhead : forall u t v, numeric u ->
                Forall (px_le v) t -> numeric v ->
                filter (same_size (parseInt u)) (v :: t) <> [] ->
                px_le v u).
      { intros u t v Hu Ht Hv Hne.
        destruct (filter (same_size (parseInt u)) (v :: t)) as [|w ws] eqn:E;
          [congruence|].
        assert (Hw : In w (filter (same_size (parseInt u)) (v :: t))).
        { rewrite E. now left. }
        apply filter_In in Hw as [Hin Hw].
        assert (Hvw : px_le v w).
        { destruct Hin as [->|Hin].
          - destruct Hv as [n Hv]. exists n, n. repeat split; auto.
            apply N.le_refl.
          - rewrite Forall_forall in Ht. now apply Ht. }
        destruct Hvw as (a & b & Ha & Hb & Hab).
        destruct Hu as [c Hc]. exists a, c. repeat split; auto.
        unfold same_size in Hw. rewrite Hb, Hc in Hw. simpl in Hw.
        apply N.eqb_eq in Hw. now subst. }
      assert (Hyx : px_le y x).
      { apply (Hhead x r2 y); auto. rewrite <- Hf. cbn [filter].
        now rewrite (same_size_refl x Hx). }
      assert (Hxy : px_le x y).
      { apply (Hhead y r1 x); auto. rewrite Hf. cbn [filter].
        now rewrite (same_size_refl y Hy). }
      assert (Hk : parseInt x = parseInt y).
      { destruct Hxy as (a & b & Ha & Hb & Hab).
        destruct Hyx as (b' & a' & Hb' & Ha' & Hba).
        rewrite Ha, Hb in *. inversion Hb'; inversion Ha'; subst.
        f_equal. now apply N.le_antisymm. }
      assert (Hxeq : x = y).
      { specialize (Hf (parseInt x)). cbn [filter] in Hf.
        rewrite (same_size_refl x Hx) in Hf. rewrite Hk in Hf.
        rewrite (same_size_refl y Hy) in Hf. now inversion Hf. }
      subst y. f_equal. apply IH; auto.
      intros k. specialize (Hf k). cbn [filter] in Hf.
      destruct (same_size k x); [now inversion Hf | assumption].
Qed.

(** The outcome of a stable sort does not depend on how the engine sorts. *)
Lemma stable_sorted_unique l r1 r2 :
  Forall numeric l -> stable_sorted l r1 -> stable_sorted l r2 -> r1 = r2.
Proof.
  intros Hl (Hp1 & Hs1 & Hf1) (Hp2 & Hs2 & Hf2).
  apply sorted_by_groups; auto.
  - now apply (Permutation_Forall Hp1).
  - now apply (Permutation_Forall Hp2).
  - intros k. now rewrite Hf1, Hf2.
Qed.

End Sorting.

(** ** The text and its lines *)

Section Rendering.

Lemma forEach_indexed_render name xs : forall index scss,
  forEach_indexed (fun x i => assignment (name x i) x) xs index scss =
  scss ++ render (named name xs index).
Proof.
  induction xs as [|x xs IH]; intros index scss; simpl.
  - now rewrite append_nil_r.
  - now rewrite IH, append_assoc.
Qed.

(** The file is three headed sections of assignment lines. *)
Lemma generateVariablesFile_layout vars :
  generateVariablesFile vars =
  "// Color Variables" ++ nl ++ render (color_variables vars) ++
  nl ++ "// Spacing Variables" ++ nl ++ render (spacing_variables vars) ++
  nl ++ "// Breakpoint Variables" ++ nl ++ render (breakpoint_variables vars).
Proof.
  unfold generateVariablesFile, color_variables, spacing_variables,
    breakpoint_variables.
  rewrite !forEach_indexed_render. now rewrite !append_assoc.
Qed.

Lemma named_values name xs : forall index,
  map snd (named name xs index) = xs.
Proof.
  induction xs as [|x xs IH]; intros index; simpl;
    [reflexivity | now rewrite IH].
Qed.

Lemma named_nth name xs : forall index i x,
  nth_error xs i = Some x ->
  nth_error (named name xs index) i = Some (name x (index + i), x).
Proof.
  induction xs as [|y xs IH]; intros index [|i] x; simpl; try discriminate.
  - intros H; inversion H; subst. now rewrite Nat.add_0_r.
  - intros H. rewrite (IH (S index) i x H). do 3 f_equal. lia.
Qed.

Lemma named_In name xs : forall index n v,
  In (n, v) (named name xs index) ->
  exists i, nth_error xs i = Some v /\ n = name v (index + i).
Proof.
  induction xs as [|y xs IH]; intros index n v; simpl; [tauto|].
  intros [H|H].
  - inversion H; subst. exists 0. now rewrite Nat.add_0_r.
  - destruct (IH _ _ _ H) as (i & Hi & ->). exists (S i).
    split; [assumption | f_equal; lia].
Qed.

Lemma lines_cons_line a b :
  one_line a -> lines (a ++ nl ++ b) = a :: lines b.
Proof.
  unfold one_line. induction a as [|c a IH]; intros H.
  - reflexivity.
  - rewrite all_chars_cons in H. apply andb_prop in H as [Hc Ha].
    cbn [append lines]. apply negb_true_iff in Hc. rewrite Hc.
    now rewrite (IH Ha).
Qed.

Lemma lines_blank b : lines (nl ++ b) = "" :: lines b.
Proof. reflexivity. Qed.

Lemma one_line_append a b : one_line a -> one_line b -> one_line (a ++ b).
Proof.
  unfold one_line. intros Ha Hb. now rewrite all_chars_append, Ha, Hb.
Qed.

Lemma all_chars_impl (p q : ascii -> bool) s :
  (forall c, p c = true -> q c = true) ->
  all_chars p s = true -> all_chars q s = true.
Proof.
  intros Hpq. induction s as [|c s IH]; [reflexivity|].
  rewrite !all_chars_cons. intros H. apply andb_prop in H as [Hc Hs].
  now rewrite (Hpq c Hc), (IH Hs).
Qed.

Lemma digits_one_line ds : all_chars is_digit ds = true -> one_line ds.
Proof.
  apply all_chars_impl. intros c Hc. apply negb_true_iff.
  destruct (Ascii.eqb_spec c nl_char) as [->|]; [discriminate | reflexivity].
Qed.

Lemma px_token_one_line m : px_token m -> one_line m.
Proof.
  intros (ds & -> & _ & Hd). apply one_line_append; [|reflexivity].
  now apply digits_one_line.
Qed.

Lemma hex_color_one_line m : hex_color m -> one_line m.
Proof.
  intros (hs & -> & _ & Hh). apply (one_line_append "#" hs); [reflexivity|].
  revert Hh. apply all_chars_impl. intros c Hc. apply negb_true_iff.
  destruct (Ascii.eqb_spec c nl_char) as [->|]; [discriminate | reflexivity].
Qed.

Lemma string_of_uint_digits d :
  all_chars is_digit (NilEmpty.string_of_uint d) = true.
Proof. induction d; simpl; auto. Qed.

Lemma index_to_string_one_line i : one_line (index_to_string i).
Proof.
  apply digits_one_line. unfold index_to_string, NilZero.string_of_uint.
  generalize (string_of_uint_digits (Nat.to_uint i)).
  destruct (Nat.to_uint i); auto.
Qed.

Lemma color_name_one_line c i : one_line (color_name c i).
Proof.
  unfold color_name.
  destruct ((c =? "#FFFFFF") || (c =? "#ffffff")); [reflexivity|].
  destruct (c =? "#e6ac55"); [reflexivity|].
  destruct (c =? "#f0f0f0"); [reflexivity|].
  destruct (c =? "#0d0c0d"); [reflexivity|].
  apply (one_line_append "color-"); [reflexivity|].
  apply index_to_string_one_line.
Qed.

Lemma spacing_bucket_one_line n : one_line (spacing_bucket n).
Proof.
  unfold spacing_bucket.
  repeat match goal with
         | |- context [if ?b then _ else _] => destruct b
         end; reflexivity.
Qed.

Lemma spacing_name_one_line all v i : one_line (spacing_name all v i).
Proof.
  unfold spacing_name.
  destruct (1 <? _)%nat.
  - apply (one_line_append "spacing-"); [reflexivity|].
    apply one_line_append; [apply spacing_bucket_one_line|].
    apply (one_line_append "-"); [reflexivity|].
    apply index_to_string_one_line.
  - apply (one_line_append "spacing-"); [reflexivity|].
    apply spacing_bucket_one_line.
Qed.

Lemma breakpoint_name_one_line v : one_line (breakpoint_name v).
Proof.
  unfold breakpoint_name, breakpoint_bucket.
  repeat match goal with
         | |- context [if ?b then _ else _] => destruct b
         end; reflexivity.
Qed.

Lemma assignment_line_one_line n v :
  one_line n -> one_line v -> one_line (assignment_line (n, v)).
Proof.
  intros Hn Hv. unfold assignment_line. simpl fst. simpl snd.
  apply (one_line_append "$"); [reflexivity|].
  apply one_line_append; [assumption|].
  apply (one_line_append ": "); [reflexivity|].
  apply one_line_append; [assumption | reflexivity].
Qed.

(** Assignments of one-line names and values take one line each. *)
Lemma lines_render nvs rest :
  Forall (fun nv => one_line (fst nv) /\ one_line (snd nv)) nvs ->
  lines (render nvs ++ rest) = (map assignment_line nvs ++ lines rest)%list.
Proof.
  induction 1 as [|[n v] nvs [Hn Hv] _ IH]; [reflexivity|].
  cbn [render map].
  replace ((assignment n v ++ render nvs) ++ rest)
    with (assignment_line (n, v) ++ nl ++ render nvs ++ rest).
  - rewrite lines_cons_line by now apply assignment_line_one_line.
    now rewrite IH.
  - unfold assignment, assignment_line. simpl fst. simpl snd.
    now rewrite !append_assoc.
Qed.

Lemma named_one_line name xs :
  (forall x i, one_line (name x i)) -> Forall one_line xs ->
  forall index,
    Forall (fun nv => one_line (fst nv) /\ one_line (snd nv))
           (named name xs index).
Proof.
  intros Hname. induction 1 as [|x xs Hx _ IH]; intros index; simpl.
  - constructor.
  - constructor; [split; [apply Hname | exact Hx] | apply IH].
Qed.

End Rendering.

(** ** What [extractVariables] returns *)

Section Extraction.

Lemma extractVariables_hits css vars :
  extractVariables css = Normal vars ->
  vars = Variables
           (first_occurrences (color_hits css))
           (sort by_parseInt (first_occurrences (spacing_hits css)))
           (sort by_parseInt (first_occurrences (breakpoint_hits css))).
Proof.
  unfold extractVariables. destruct (scan css) as [st|] eqn:Hs; simpl;
    [|discriminate].
  intros H; inversion H; subst. now rewrite (scan_sets css st Hs).
Qed.

Lemma extractVariables_returns css :
  existsb raises_rule (stylesheet_rules css) = false ->
  exists vars, extractVariables css = Normal vars.
Proof.
  intros H. destruct (scan_returns css H) as [st Hs].
  unfold extractVariables. rewrite Hs. simpl. eexists. reflexivity.
Qed.

Lemma spacing_hit_token d m : spacing_hit d = Some m -> px_token m.
Proof.
  unfold spacing_hit. destruct (_ && _); [|discriminate].
  destruct (value d); [|discriminate]. intros H.
  now apply match_px_token in H.
Qed.

Lemma breakpoint_hit_token r m : breakpoint_hit r = Some m -> px_token m.
Proof.
  unfold breakpoint_hit. destruct (_ =? _); [|discriminate].
  destruct (media r); [|discriminate]. intros H.
  now apply match_px_token in H.
Qed.

Lemma color_hit_token d m : color_hit d = Some m -> color_token m.
Proof.
  unfold color_hit. destruct (_ && _); [|discriminate].
  destruct (value d); [|discriminate]. intros H.
  now apply match_color_token in H.
Qed.

Lemma hits_Forall {A} (f : A -> option string) (P : string -> Prop) xs :
  (forall x m, f x = Some m -> P m) -> Forall P (hits f xs).
Proof.
  intros H. apply Forall_forall. intros m Hm.
  apply hits_In in Hm as (x & _ & Hx). eauto.
Qed.

Lemma first_occurrences_Forall (P : string -> Prop) l :
  Forall P l -> Forall P (first_occurrences l).
Proof.
  rewrite !Forall_forall. intros H x Hx. apply H.
  now apply first_occurrences_In.
Qed.

Lemma px_token_numeric m : px_token m -> numeric m.
Proof. apply parseInt_px_token. Qed.

Lemma spacing_hits_numeric css :
  Forall numeric (first_occurrences (spacing_hits css)).
Proof.
  apply first_occurrences_Forall, hits_Forall. intros d m H.
  now apply px_token_numeric, (spacing_hit_token d).
Qed.

Lemma breakpoint_hits_numeric css :
  Forall numeric (first_occurrences (breakpoint_hits css)).
Proof.
  apply first_occurrences_Forall, hits_Forall. intros r m H.
  now apply px_token_numeric, (breakpoint_hit_token r).
Qed.

End Extraction.

(** * Properties of the variable scaffold *)

Section ExactlyOnce.

Lemma named_once name xs v :
  NoDup xs -> In v xs ->
  count_occ string_dec (map snd (named name xs 0)) v = 1.
Proof.
  intros Hn Hin. rewrite named_values.
  now apply (proj1 (NoDup_count_occ' string_dec xs) Hn).
Qed.

End ExactlyOnce.

(** C1, as stated, fails: the colours [#FFFFFF] and [#ffffff] are two values
    of the colour set and both generated variables are named
    [color-white]. *)
Lemma C1_same_name_counterexample :
  extractVariables two_whites =
    Normal (Variables ["#FFFFFF"; "#ffffff"] [] []) /\
  color_variables (Variables ["#FFFFFF"; "#ffffff"] [] []) =
    [("color-white", "#FFFFFF"); ("color-white", "#ffffff")] /\
  ~ NoDup (map fst (color_variables (Variables ["#FFFFFF"; "#ffffff"] [] []))).
Proof.
  split; [reflexivity|]. split; [reflexivity|].
  intros H. inversion H as [|? ? Hnin _]; subst. apply Hnin. now left.
Qed.

(** C1, amended: for every stylesheet on which extraction returns, the
    rendered text is the three headed sections of assignment lines, and
    every value of the colour, spacing and breakpoint sequences is the value
    of exactly one assignment of its section.  Names may repeat. *)
Theorem C1_every_value_rendered_once css vars :
  extractVariables css = Normal vars ->
  generateVariablesFile vars =
    "// Color Variables" ++ nl ++ render (color_variables vars) ++
    nl ++ "// Spacing Variables" ++ nl ++ render (spacing_variables vars) ++
    nl ++ "// Breakpoint Variables" ++ nl ++
    render (breakpoint_variables vars) /\
  (forall v, In v (colors vars) ->
     count_occ string_dec (map snd (color_variables vars)) v = 1) /\
  (forall v, In v (spacing vars) ->
     count_occ string_dec (map snd (spacing_variables vars)) v = 1) /\
  (forall v, In v (breakpoints vars) ->
     count_occ string_dec (map snd (breakpoint_variables vars)) v = 1) /\
  (forall n v, In (n, v) (color_variables vars) -> In v (colors vars)) /\
  (forall n v, In (n, v) (spacing_variables vars) -> In v (spacing vars)) /\
  (forall n v, In (n, v) (breakpoint_variables vars) ->
     In v (breakpoints vars)).
Proof.
  intros H. apply extractVariables_hits in H. subst vars.
  split; [apply generateVariablesFile_layout|].
  unfold color_variables, spacing_variables, breakpoint_variables.
  cbn [colors spacing breakpoints].
  assert (Hback : forall name xs n v, In (n, v) (named name xs 0) -> In v xs).
  { intros name xs n v Hin. apply named_In in Hin as (i & Hi & _).
    now apply nth_error_In in Hi. }
  repeat split; intros; eauto;
    apply named_once; auto using first_occurrences_NoDup, sort_NoDup.
Qed.

Lemma C1_every_value_rendered_once_witness :
  extractVariables two_whites =
    Normal (Variables ["#FFFFFF"; "#ffffff"] [] []) /\
  count_occ string_dec
    (map snd (color_variables (Variables ["#FFFFFF"; "#ffffff"] [] [])))
    "#ffffff" = 1.
Proof.
  split; [reflexivity|].
  apply (C1_every_value_rendered_once two_whites
           (Variables ["#FFFFFF"; "#ffffff"] [] []) eq_refl).
  simpl. auto.
Defined.

Section Suffix.

(** More than one element passes a test that the [i]-th passes exactly when
    an element at another index passes it too. *)
Lemma filter_more_than_one (f : string -> bool) l i v :
  nth_error l i = Some v -> f v = true ->
  (1 < List.length (filter f l) <->
   exists j w, j <> i /\ nth_error l j = Some w /\ f w = true).
Proof.
  intros Hi Hv. destruct (nth_error_split l i Hi) as (l1 & l2 & -> & Hlen).
  rewrite filter_app, length_app. cbn [filter]. rewrite Hv. cbn [List.length].
  split.
  - intros Hgt.
    destruct (filter f l1) as [|w ws] eqn:E1.
    + destruct (filter f l2) as [|w ws] eqn:E2; [simpl in Hgt; lia|].
      assert (Hw : In w (filter f l2)) by (rewrite E2; now left).
      apply filter_In in Hw as [Hin Hfw].
      apply In_nth_error in Hin as [j Hj].
      exists (List.length l1 + S j), w. split; [lia|]. split; [|assumption].
      rewrite nth_error_app2 by lia.
      replace (List.length l1 + S j - List.length l1) with (S j) by lia.
      exact Hj.
    + assert (Hw : In w (filter f l1)) by (rewrite E1; now left).
      apply filter_In in Hw as [Hin Hfw].
      apply In_nth_error in Hin as [j Hj].
      assert (Hlt : j < List.length l1).
      { apply nth_error_Some. congruence. }
      exists j, w. split; [lia|]. split; [|assumption].
      now rewrite nth_error_app1.
  - intros (j & w & Hne & Hj & Hfw).
    destruct (Nat.lt_ge_cases j (List.length l1)) as [Hlt|Hge].
    + rewrite nth_error_app1 in Hj by assumption.
      apply nth_error_In in Hj.
      assert (Hw : In w (filter f l1)) by (apply filter_In; auto).
      destruct (filter f l1); [destruct Hw | simpl; lia].
    + rewrite nth_error_app2 in Hj by assumption.
      destruct (j - List.length l1) as [|k] eqn:Ek; [lia|].
      simpl in Hj. apply nth_error_In in Hj.
      assert (Hw : In w (filter f l2)) by (apply filter_In; auto).
      destruct (filter f l2); [destruct Hw | simpl; lia].
Qed.

Lemma num_eq_true_iff a n : num_eq a (Some n) = true <-> a = Some n.
Proof.
  destruct a as [m|]; simpl; [|split; discriminate].
  rewrite N.eqb_eq. split; congruence.
Qed.

End Suffix.

(** C2, as stated, fails: [5px] and [6px] are distinct spacing values that
    both fall in the bucket [sm], and neither name gets a suffix (the claim
    gives [spacing-sm-0] and [spacing-sm-1]). *)
Lemma C2_same_bucket_counterexample :
  extractVariables five_six = Normal (Variables [] ["5px"; "6px"] []) /\
  spacing_bucket (parseInt "5px") = "sm" /\
  spacing_bucket (parseInt "6px") = "sm" /\
  spacing_variables (Variables [] ["5px"; "6px"] []) =
    [("spacing-sm", "5px"); ("spacing-sm", "6px")] /\
  spacing_name ["5px"; "6px"] "5px" 0 <> "spacing-sm-0" /\
  spacing_name ["5px"; "6px"] "6px" 1 <> "spacing-sm-1".
Proof.
  repeat split; try reflexivity; discriminate.
Qed.

(** C2, amended: in the spacing sequence, an entry whose integer value (as
    [parseInt] reads it) is also the integer value of an entry at another
    index, as for [8px] and [08px], is named by its bucket followed by a
    hyphen and its own index in the whole sequence; an entry whose integer
    value no other entry has is named by its bucket alone, whatever bucket
    the other entries fall in. *)
Theorem C2_suffix_on_equal_value vars i v :
  nth_error (spacing vars) i = Some v ->
  numeric v ->
  exists name,
    nth_error (spacing_variables vars) i = Some (name, v) /\
    ((exists j w, j <> i /\ nth_error (spacing vars) j = Some w /\
                  parseInt w = parseInt v) ->
     name = "spacing-" ++ spacing_bucket (parseInt v) ++ "-" ++
            index_to_string i) /\
    ((forall j w, j <> i -> nth_error (spacing vars) j = Some w ->
                  parseInt w <> parseInt v) ->
     name = "spacing-" ++ spacing_bucket (parseInt v)).
Proof.
  intros Hi [n Hn]. exists (spacing_name (spacing vars) v i).
  split; [apply (named_nth _ _ 0 i v Hi)|].
  assert (Hv : (fun s => num_eq (parseInt s) (parseInt v)) v = true).
  { rewrite Hn. now apply num_eq_true_iff. }
  pose proof (filter_more_than_one _ _ _ _ Hi Hv) as Hcount.
  unfold spacing_name. split.
  - intros (j & w & Hne & Hj & Hw).
    assert (Hgt : 1 < List.length
                        (filter (fun s => num_eq (parseInt s) (parseInt v))
                                (spacing vars))).
    { apply Hcount. exists j, w. repeat split; auto.
      rewrite Hw, Hn. now apply num_eq_true_iff. }
    apply Nat.ltb_lt in Hgt. rewrite Hgt. now rewrite append_assoc.
  - intros Hall.
    destruct (1 <? _)%nat eqn:Hgt; [|reflexivity].
    apply Nat.ltb_lt, Hcount in Hgt. destruct Hgt as (j & w & Hne & Hj & Hw).
    exfalso. apply (Hall j w Hne Hj).
    rewrite Hn in Hw |- *. now apply num_eq_true_iff.
Qed.

Lemma C2_suffix_on_equal_value_witness :
  extractVariables leading_zero = Normal (Variables [] ["8px"; "08px"] []) /\
  exists name,
    nth_error (spacing_variables (Variables [] ["8px"; "08px"] [])) 1 =
      Some (name, "08px") /\
    name = "spacing-sm-1".
Proof.
  split; [reflexivity|].
  destruct (C2_suffix_on_equal_value (Variables [] ["8px"; "08px"] []) 1 "08px"
              eq_refl (ex_intro _ 8%N eq_refl))
    as (name & Hnth & Hdup & _).
  exists name. split; [exact Hnth|].
  apply Hdup. exists 0, "8px". repeat split. discriminate.
Defined.

(** Off the trees the parser builds: a [color] declaration object without
    a [value] field makes the traversal throw, which is why the statements
    about a returning extraction assume [carries_values]. *)
Lemma absent_value_field_throws :
  extractVariables valueless = Throw.
Proof. reflexivity. Qed.

Section Skipping.

(** A declaration whose value matches neither pattern leaves the sets as
    they are. *)
Lemma visit_declaration_no_match st d v :
  value d = Some v -> match_color v = None -> match_px v = None ->
  visit_declaration st d = Normal st.
Proof.
  destruct d as [ty p v0]. intros Hv Hc Hp. simpl in Hv. subst v0.
  unfold visit_declaration, extract_color, extract_spacing. simpl.
  rewrite Hc, Hp.
  destruct (ty =? "declaration"); [|reflexivity].
  destruct (has_any p color_keys); simpl;
    now destruct (has_any p spacing_keys).
Qed.

(** Such a declaration can be left out of its rule. *)
Lemma visit_rule_without_no_match st ds1 d ds2 cond inner v :
  value d = Some v -> match_color v = None -> match_px v = None ->
  visit_rule st (Node "rule" (Some (ds1 ++ d :: ds2)%list) cond inner) =
  visit_rule st (Node "rule" (Some (ds1 ++ ds2)%list) cond inner).
Proof.
  intros Hv Hc Hp. unfold visit_rule. cbn [type declarations String.eqb].
  replace (forEach visit_declaration (ds1 ++ d :: ds2)%list st)
    with (forEach visit_declaration (ds1 ++ ds2)%list st); [reflexivity|].
  rewrite !forEach_app.
  destruct (forEach visit_declaration ds1 st) as [t|]; [|reflexivity].
  cbn [bind forEach].
  now rewrite (visit_declaration_no_match t d v Hv Hc Hp).
Qed.

End Skipping.

(** C3: on every structurally valid parse tree, one in which the members of
    type [declaration] of the top-level rules carry a value string, empty
    or not, and the top-level media rules a condition string, as in every
    tree the parser builds, the extraction returns and never throws.  A
    declaration whose value is empty or matches neither pattern, and one
    whose property is absent or empty, is skipped with no entry added: it
    leaves the sets as they are, and the extraction gives what it gives on
    the stylesheet without that declaration. *)
Theorem C3_returns_on_valued_trees css :
  carries_values css ->
  (exists vars, extractVariables css = Normal vars) /\
  (forall st d v, value d = Some v -> match_color v = None ->
                  match_px v = None -> visit_declaration st d = Normal st) /\
  (forall st d, truthy (property d) = false ->
                visit_declaration st d = Normal st) /\
  (forall st d, value d = Some "" -> visit_declaration st d = Normal st) /\
  (forall before after ds1 ds2 d cond inner v,
     value d = Some v -> match_color v = None -> match_px v = None ->
     extractVariables
       (ParsedCSS
          (before ++
           Node "rule" (Some (ds1 ++ d :: ds2)%list) cond inner :: after)%list) =
     extractVariables
       (ParsedCSS
          (before ++
           Node "rule" (Some (ds1 ++ ds2)%list) cond inner :: after)%list)).
Proof.
  intros Hcv. split; [|split; [|split; [|split]]].
  - apply extractVariables_returns.
    destruct (existsb raises_rule (stylesheet_rules css)) eqn:E;
      [|reflexivity].
    exfalso. apply existsb_exists in E as (r & Hin & Hr).
    unfold carries_values in Hcv. rewrite Forall_forall in Hcv.
    destruct (Hcv r Hin) as [Hm Hd]. unfold raises_rule in Hr.
    apply orb_true_iff in Hr as [Hr|Hr].
    + apply existsb_exists in Hr as (d & Hdin & Hdr).
      rewrite Forall_forall in Hd. specialize (Hd d Hdin).
      unfold raises_declaration in Hdr.
      destruct (String.eqb_spec (decl_type d) "declaration") as [Hty|];
        [|discriminate].
      specialize (Hd Hty). destruct (value d); [|congruence].
      now rewrite andb_false_r in Hdr.
    + apply andb_prop in Hr as [Ht Hn]. apply String.eqb_eq in Ht.
      specialize (Hm Ht). destruct (media r); [discriminate | congruence].
  - apply visit_declaration_no_match.
  - intros st d Hp.
    unfold visit_declaration, extract_color, extract_spacing, has_any.
    destruct (property d) as [p|]; [rewrite Hp|];
      now destruct (decl_type d =? "declaration").
  - intros st d Hv. now apply (visit_declaration_no_match st d "").
  - intros before after ds1 ds2 d cond inner v Hv Hc Hp.
    unfold extractVariables, scan. cbn [stylesheet_rules]. f_equal.
    rewrite !forEach_app.
    destruct (forEach visit_rule before (Sets [] [] [])) as [st|];
      [|reflexivity].
    cbn [bind forEach].
    now rewrite (visit_rule_without_no_match st ds1 d ds2 cond inner v).
Qed.

Lemma C3_returns_on_valued_trees_witness :
  carries_values mixed /\
  extractVariables mixed = Normal (Variables ["#e6ac55"] [] ["600px"]) /\
  visit_declaration (Sets [] [] []) (decl "color" "red") =
    Normal (Sets [] [] []) /\
  visit_declaration (Sets [] [] []) (decl "color" "") =
    Normal (Sets [] [] []).
Proof.
  assert (Hcv : carries_values mixed).
  { unfold carries_values. cbn.
    repeat (first [apply Forall_nil | apply Forall_cons | split]);
      cbn; congruence. }
  destruct (C3_returns_on_valued_trees mixed Hcv)
    as (_ & Hskip & _ & Hempty & _).
  split; [exact Hcv|]. split; [reflexivity|]. split.
  - apply (Hskip _ _ "red"); reflexivity.
  - apply Hempty. reflexivity.
Defined.

Section FirstToken.

Lemma match_px_unfold s :
  match_px s =
  match px_at s with
  | Some m => Some m
  | None => match s with "" => None | String _ s' => match_px s' end
  end.
Proof. destruct s; reflexivity. Qed.

Lemma px_at_prefix s m : px_at s = Some m -> exists rest, s = m ++ rest.
Proof.
  unfold px_at. destruct (span is_digit s) as [ds rest] eqn:Hs.
  destruct (1 <=? String.length ds)%nat; simpl; [|discriminate].
  destruct (prefix "px" rest) eqn:Hp; [|discriminate].
  intros H; inversion H; subst; clear H.
  apply span_spec in Hs as (-> & _ & _).
  apply prefix_spec in Hp as [r ->]. exists r. now rewrite append_assoc.
Qed.

(** Where a [px] token starts, the anchored pattern matches it. *)
Lemma px_at_token_here t rest : px_token t -> px_at (t ++ rest) = Some t.
Proof.
  intros (ds & -> & Hl & Hd). unfold px_at.
  rewrite append_assoc.
  rewrite (span_append is_digit ds ("px" ++ rest) Hd) by reflexivity.
  apply Nat.leb_le in Hl. now rewrite Hl, prefix_append.
Qed.

Lemma first_px_token_match m s : first_px_token m s -> match_px s = Some m.
Proof.
  intros (pre & post & -> & Ht & Hfirst).
  induction pre as [|c pre IH].
  - rewrite match_px_unfold. cbn [append].
    now rewrite (px_at_token_here m post Ht).
  - rewrite match_px_unfold.
    destruct (px_at (String c pre ++ m ++ post)) as [t|] eqn:E.
    + exfalso. pose proof (px_at_token _ _ E) as [Htok _].
      apply px_at_prefix in E as [rest E].
      apply (Hfirst "" (String c pre) t rest); auto. discriminate.
    + cbn [append]. apply IH. intros a b t rest Hpre.
      apply (Hfirst (String c a) b t rest). cbn [append]. now rewrite Hpre.
Qed.

Lemma match_px_first_token s : forall m,
  match_px s = Some m -> first_px_token m s.
Proof.
  induction s as [|c s IH]; intros m; rewrite match_px_unfold.
  - discriminate.
  - destruct (px_at (String c s)) as [t|] eqn:E.
    + intros H; inversion H; subst.
      pose proof (px_at_token _ _ E) as [Htok _].
      apply px_at_prefix in E as [rest E].
      exists "", rest. split; [exact E|]. split; [assumption|].
      intros a b t rest' Hab Hb. destruct a, b; try discriminate.
      now contradiction Hb.
    + intros H. destruct (IH m H) as (pre & post & -> & Ht & Hfirst).
      exists (String c pre), post. split; [reflexivity|].
      split; [assumption|].
      intros a b t rest Hab Hb Htok Heq. destruct a as [|c' a].
      * cbn [append] in Hab. subst b. cbn [append] in Heq.
        rewrite Heq, (px_at_token_here t rest Htok) in E. discriminate.
      * cbn [append] in Hab. inversion Hab; subst.
        now apply (Hfirst a b t rest).
Qed.

Lemma includes_nonempty p k : includes p k = true -> k <> "" -> p <> "".
Proof. intros H Hk ->. destruct k; [congruence | discriminate]. Qed.

End FirstToken.

(** C4, as stated, fails: the [margin] declaration of a rule nested in a
    media rule is not visited, and its token [8px] is not in the spacing
    sequence. *)
Lemma C4_nested_rule_counterexample :
  first_px_token "8px" "8px" /\
  extractVariables nested_margin = Normal (Variables [] [] ["600px"]) /\
  ~ In "8px" (spacing (Variables [] [] ["600px"])).
Proof.
  split; [now apply match_px_first_token|].
  split; [reflexivity | intros []].
Qed.

(** C4, amended: for every declaration of a top-level node of type [rule]
    whose property name contains [margin] or [padding], the first
    integer-[px] token of its value is in the spacing sequence that the
    extraction returns.  Rules nested inside a media rule are not visited. *)
Theorem C4_top_level_spacing css r ds d p v m vars :
  In r (stylesheet_rules css) ->
  type r = "rule" ->
  declarations r = Some ds ->
  In d ds ->
  decl_type d = "declaration" ->
  property d = Some p ->
  includes p "margin" = true \/ includes p "padding" = true ->
  value d = Some v ->
  first_px_token m v ->
  extractVariables css = Normal vars ->
  In m (spacing vars).
Proof.
  intros Hr Hty Hds Hd Hdt Hp Hkey Hv Hm Hx.
  apply extractVariables_hits in Hx. subst vars. cbn [spacing].
  apply sort_In, first_occurrences_In, hits_In. exists d. split.
  - apply in_flat_map. exists r. split; [assumption|].
    unfold scanned_declarations. now rewrite Hty, Hds.
  - unfold spacing_hit, has_any. rewrite Hdt, Hp, Hv, String.eqb_refl.
    assert (Hne : p <> "").
    { destruct Hkey as [H|H]; apply (includes_nonempty _ _ H); discriminate. }
    apply String.eqb_neq in Hne. unfold truthy. rewrite Hne.
    assert (Hk : existsb (includes p) spacing_keys = true).
    { unfold spacing_keys. cbn [existsb].
      destruct Hkey as [-> | ->]; [reflexivity | apply orb_true_r]. }
    rewrite Hk. cbn [negb andb].
    now apply first_px_token_match.
Qed.

Lemma C4_top_level_spacing_witness :
  first_px_token "8px" "8px 0 8px 0" /\
  In "8px" (spacing (Variables [] ["8px"; "16px"] [])).
Proof.
  assert (Hfirst : first_px_token "8px" "8px 0 8px 0")
    by now apply match_px_first_token.
  split; [exact Hfirst|].
  apply (C4_top_level_spacing margin_padding
           (rule [decl "margin" "8px 0 8px 0";
                  decl "padding" "16px 16px 16px 16px"])
           [decl "margin" "8px 0 8px 0"; decl "padding" "16px 16px 16px 16px"]
           (decl "margin" "8px 0 8px 0") "margin" "8px 0 8px 0" "8px").
  - now left.
  - reflexivity.
  - reflexivity.
  - now left.
  - reflexivity.
  - reflexivity.
  - now left.
  - reflexivity.
  - exact Hfirst.
  - reflexivity.
Defined.

(** C5, as stated, fails: [8px] and [08px] are two entries of the spacing
    sequence with the same integer value, so the sequence is not strictly
    ascending. *)
Lemma C5_tie_counterexample :
  extractVariables leading_zero = Normal (Variables [] ["8px"; "08px"] []) /\
  parseInt "8px" = parseInt "08px" /\
  ~ StronglySorted px_lt (spacing (Variables [] ["8px"; "08px"] [])).
Proof.
  split; [reflexivity|]. split; [reflexivity|].
  intros H. inversion H as [|? ? _ Hall]; subst.
  inversion Hall as [|? ? (x & y & Hx & Hy & Hlt) _]; subst.
  inversion Hx; inversion Hy; subst. now apply N.lt_irrefl in Hlt.
Qed.

(** C5, amended: the colour sequence is the discovered colour tokens in the
    order of first discovery; the spacing and the breakpoint sequences hold
    the discovered tokens, each once, in ascending but not necessarily
    strictly ascending order of the integer [parseInt] reads, tokens of
    equal integer value in the order of first discovery. *)
Theorem C5_ascending_and_stable css vars :
  extractVariables css = Normal vars ->
  colors vars = first_occurrences (color_hits css) /\
  stable_sorted (first_occurrences (spacing_hits css)) (spacing vars) /\
  stable_sorted (first_occurrences (breakpoint_hits css)) (breakpoints vars).
Proof.
  intros H. apply extractVariables_hits in H. subst vars.
  cbn [colors spacing breakpoints]. split; [reflexivity|].
  split; apply sort_stable_sorted;
    [apply spacing_hits_numeric | apply breakpoint_hits_numeric].
Qed.

Lemma C5_ascending_and_stable_witness :
  stable_sorted (first_occurrences (spacing_hits leading_zero))
                (spacing (Variables [] ["8px"; "08px"] [])).
Proof.
  apply (C5_ascending_and_stable leading_zero
           (Variables [] ["8px"; "08px"] []) eq_refl).
Defined.

Section Determinism.

Lemma extractVariables_run_outcome css vars :
  extractVariables css = Normal vars -> run_outcome css vars.
Proof.
  intros H. pose proof (extractVariables_hits css vars H) as Hv.
  unfold extractVariables in H.
  destruct (scan css) as [st|] eqn:Hs; [|discriminate].
  exists st. split; [exact Hs|].
  pose proof (scan_sets css st Hs) as Hst. clear H Hs. subst st vars.
  cbn [colors spacing breakpoints set_colors set_spacing set_breakpoints].
  split; [reflexivity|].
  split; apply sort_stable_sorted;
    [apply spacing_hits_numeric | apply breakpoint_hits_numeric].
Qed.

Lemma run_outcome_unique css v1 v2 :
  run_outcome css v1 -> run_outcome css v2 -> v1 = v2.
Proof.
  intros (s1 & Hs1 & Hc1 & Hp1 & Hb1) (s2 & Hs2 & Hc2 & Hp2 & Hb2).
  rewrite Hs1 in Hs2. inversion Hs2; subst s2.
  pose proof (scan_sets css s1 Hs1) as Hst. subst s1.
  cbn [set_colors set_spacing set_breakpoints] in *.
  destruct v1 as [c1 p1 b1], v2 as [c2 p2 b2].
  cbn [colors spacing breakpoints] in *. f_equal.
  - congruence.
  - apply (stable_sorted_unique (first_occurrences (spacing_hits css)));
      auto using spacing_hits_numeric.
  - apply (stable_sorted_unique (first_occurrences (breakpoint_hits css)));
      auto using breakpoint_hits_numeric.
Qed.

End Determinism.

(** C9: two runs of extraction and generation on the same stylesheet write
    the same text.  Whatever stable arrangement the engine's sort settles
    on, a run that returns returns the variables [extractVariables] computes,
    so the texts generated from any two runs are identical. *)
Theorem C9_two_runs_same_text css v1 v2 :
  run_outcome css v1 ->
  run_outcome css v2 ->
  v1 = v2 /\
  extractVariables css = Normal v1 /\
  generateVariablesFile v1 = generateVariablesFile v2 /\
  variables_file css = Normal (generateVariablesFile v2).
Proof.
  intros H1 H2. pose proof (run_outcome_unique css v1 v2 H1 H2) as ->.
  assert (Hx : extractVariables css = Normal v2).
  { destruct (extractVariables css) as [v|] eqn:Hv.
    - f_equal. apply (run_outcome_unique css); auto.
      now apply extractVariables_run_outcome.
    - destruct H2 as (st & Hs & _).
      unfold extractVariables in Hv. rewrite Hs in Hv. discriminate. }
  repeat split; auto. unfold variables_file. now rewrite Hx.
Qed.

Lemma C9_two_runs_same_text_witness :
  generateVariablesFile (Variables [] ["8px"; "08px"] []) =
  generateVariablesFile (Variables [] ["8px"; "08px"] []) /\
  variables_file leading_zero =
    Normal (generateVariablesFile (Variables [] ["8px"; "08px"] [])).
Proof.
  assert (H : run_outcome leading_zero (Variables [] ["8px"; "08px"] []))
    by now apply extractVariables_run_outcome.
  destruct (C9_two_runs_same_text leading_zero _ _ H H) as (_ & _ & Ht & Hf).
  split; [exact Ht | exact Hf].
Defined.

Section Buckets.

Lemma named_by_value (f : string -> string) xs : forall index,
  named (fun val _ => f val) xs index = map (fun val => (f val, val)) xs.
Proof.
  induction xs as [|x xs IH]; intros index; simpl;
    [reflexivity | now rewrite IH].
Qed.

End Buckets.

(** C6: spacing is classified by fixed thresholds on the integer [parseInt]
    reads from the value, and the name of a spacing variable is [spacing-]
    followed by the bucket and, possibly, a suffix; the declarations
    [margin: 8px 0 8px 0] and [padding: 16px 16px 16px 16px] yield the
    spacing sequence [8px], [16px], named [spacing-sm] and [spacing-md]
    without suffix. *)
Theorem C6_spacing_thresholds :
  (forall n : N,
     (spacing_bucket (Some n) = "none" <-> n = 0%N) /\
     (spacing_bucket (Some n) = "xs" <-> (1 <= n <= 4)%N) /\
     (spacing_bucket (Some n) = "sm" <-> (5 <= n <= 8)%N) /\
     (spacing_bucket (Some n) = "md" <-> (9 <= n <= 16)%N) /\
     (spacing_bucket (Some n) = "lg" <-> (17 <= n <= 24)%N) /\
     (spacing_bucket (Some n) = "xl" <-> (25 <= n <= 32)%N) /\
     (spacing_bucket (Some n) = "xxl" <-> (33 <= n)%N)) /\
  (forall all val index,
     spacing_name all val index = "spacing-" ++ spacing_bucket (parseInt val) \/
     spacing_name all val index =
       ("spacing-" ++ spacing_bucket (parseInt val)) ++ "-" ++
       index_to_string index) /\
  extractVariables margin_padding = Normal (Variables [] ["8px"; "16px"] []) /\
  spacing_variables (Variables [] ["8px"; "16px"] []) =
    [("spacing-sm", "8px"); ("spacing-md", "16px")] /\
  variables_file margin_padding =
    Normal ("// Color Variables" ++ nl ++
            nl ++ "// Spacing Variables" ++ nl ++
            "$spacing-sm: 8px;" ++ nl ++
            "$spacing-md: 16px;" ++ nl ++
            nl ++ "// Breakpoint Variables" ++ nl).
Proof.
  split; [|split; [|repeat split]].
  - intros n. unfold spacing_bucket, num_eq, num_le.
    destruct (N.eqb_spec n 0); [settle_bucket|].
    destruct (N.leb_spec n 4); [settle_bucket|].
    destruct (N.leb_spec n 8); [settle_bucket|].
    destruct (N.leb_spec n 16); [settle_bucket|].
    destruct (N.leb_spec n 24); [settle_bucket|].
    destruct (N.leb_spec n 32); settle_bucket.
  - intros all val index. unfold spacing_name.
    destruct (1 <? _)%nat; [right | left]; reflexivity.
Qed.

(** C7: breakpoints are classified by fixed thresholds on the integer
    [parseInt] reads from the value, and the name of a breakpoint variable
    is [breakpoint-] followed by the bucket, whatever the index and the
    other entries; a top-level media rule with the condition
    [(max-width: 600px)] puts [600px] in the breakpoint sequence, named
    [breakpoint-tablet]. *)
Theorem C7_breakpoint_thresholds :
  (forall n : N,
     (breakpoint_bucket (Some n) = "mobile" <-> (n <= 480)%N) /\
     (breakpoint_bucket (Some n) = "tablet" <-> (481 <= n <= 768)%N) /\
     (breakpoint_bucket (Some n) = "desktop" <-> (769 <= n <= 1024)%N) /\
     (breakpoint_bucket (Some n) = "widescreen" <-> (1025 <= n <= 1280)%N) /\
     (breakpoint_bucket (Some n) = "ultrawide" <-> (1281 <= n)%N)) /\
  (forall vars,
     breakpoint_variables vars =
     map (fun val => ("breakpoint-" ++ breakpoint_bucket (parseInt val), val))
         (breakpoints vars)) /\
  (forall css r vars,
     In r (stylesheet_rules css) ->
     type r = "media" ->
     media r = Some "(max-width: 600px)" ->
     extractVariables css = Normal vars ->
     In "600px" (breakpoints vars) /\
     In ("breakpoint-tablet", "600px") (breakpoint_variables vars)).
Proof.
  split; [|split].
  - intros n. unfold breakpoint_bucket, num_le.
    destruct (N.leb_spec n 480); [settle_bucket|].
    destruct (N.leb_spec n 768); [settle_bucket|].
    destruct (N.leb_spec n 1024); [settle_bucket|].
    destruct (N.leb_spec n 1280); settle_bucket.
  - intros vars. apply named_by_value.
  - intros css r vars Hr Hty Hm Hx.
    assert (Hin : In "600px" (breakpoints vars)).
    { apply extractVariables_hits in Hx. subst vars. cbn [breakpoints].
      apply sort_In, first_occurrences_In, hits_In. exists r.
      split; [assumption|]. unfold breakpoint_hit. now rewrite Hty, Hm. }
    split; [assumption|].
    unfold breakpoint_variables. rewrite named_by_value.
    apply (in_map (fun val => (breakpoint_name val, val))
                  (breakpoints vars) "600px" Hin).
Qed.

Lemma C7_breakpoint_thresholds_witness :
  In "600px" (breakpoints (Variables ["#e6ac55"] [] ["600px"])) /\
  In ("breakpoint-tablet", "600px")
     (breakpoint_variables (Variables ["#e6ac55"] [] ["600px"])).
Proof.
  destruct C7_breakpoint_thresholds as (_ & _ & H).
  apply (H mixed (media_rule "(max-width: 600px)" [])).
  - right. now left.
  - reflexivity.
  - reflexivity.
  - reflexivity.
Defined.

(** C8: the colour at position [index] of the colour sequence is named
    [color-] followed by [index + 1], unless it is one of five strings:
    [#0d0c0d] is named [color-dark], [#f0f0f0] [color-light], [#e6ac55]
    [color-accent] and both [#FFFFFF] and [#ffffff] [color-white], at any
    index.  The comparison is exact: other spellings get the indexed
    name. *)
Theorem C8_color_names :
  (forall index, color_name "#0d0c0d" index = "color-dark") /\
  (forall index, color_name "#f0f0f0" index = "color-light") /\
  (forall index, color_name "#e6ac55" index = "color-accent") /\
  (forall index, color_name "#FFFFFF" index = "color-white") /\
  (forall index, color_name "#ffffff" index = "color-white") /\
  (forall color index,
     ~ In color ["#0d0c0d"; "#f0f0f0"; "#e6ac55"; "#FFFFFF"; "#ffffff"] ->
     color_name color index = "color-" ++ index_to_string (index + 1)) /\
  color_name "#E6AC55" 0 = "color-1" /\
  color_name "#F0F0F0" 1 = "color-2" /\
  color_name "#0D0C0D" 2 = "color-3" /\
  color_name "#FfFfFf" 9 = "color-10" /\
  (forall vars index color,
     nth_error (colors vars) index = Some color ->
     nth_error (color_variables vars) index =
       Some (color_name color index, color)).
Proof.
  repeat split; try reflexivity.
  - intros color index Hnot. unfold color_name.
    assert (Hne : forall k,
              In k ["#0d0c0d"; "#f0f0f0"; "#e6ac55"; "#FFFFFF"; "#ffffff"] ->
              (color =? k) = false).
    { intros k Hk. apply String.eqb_neq. intros ->. now apply Hnot. }
    rewrite !Hne by (simpl; tauto). reflexivity.
  - intros vars index color H. apply (named_nth color_name _ 0 index color H).
Qed.

Lemma C8_color_names_witness :
  color_name "#abc" 6 = "color-7" /\
  nth_error (color_variables (Variables ["#abc"; "#e6ac55"] [] [])) 1 =
    Some ("color-accent", "#e6ac55").
Proof.
  destruct C8_color_names as (_ & _ & Hacc & _ & _ & Hdef & _ & _ & _ & _ & Hnth).
  split.
  - apply (Hdef "#abc" 6). simpl. intros [H|[H|[H|[H|[H|[]]]]]]; discriminate.
  - rewrite <- (Hacc 1).
    apply (Hnth (Variables ["#abc"; "#e6ac55"] [] []) 1 "#e6ac55").
    reflexivity.
Defined.

(** C10, as stated, fails: an [rgb(...)] token may hold a line feed, and the
    assignment written for it then spreads over two lines, neither of which
    has the shape of an assignment. *)
Lemma C10_two_line_counterexample :
  extractVariables two_line_color = Normal (Variables [broken_rgb] [] []) /\
  color_token broken_rgb /\
  lines (generateVariablesFile (Variables [broken_rgb] [] [])) =
    ["// Color Variables"; "$color-1: rgb(0,"; "0,0);"; "";
     "// Spacing Variables"; ""; "// Breakpoint Variables"] /\
  ~ (exists n v, "0,0);" = assignment_line (n, v)).
Proof.
  split; [reflexivity|]. split; [|split; [reflexivity|]].
  - right. exists ("0," ++ nl ++ "0,0"). split; [now left|].
    split; [simpl; lia | reflexivity].
  - intros (n & v & H). discriminate H.
Qed.

(** C10, amended: every string of the spacing and breakpoint sequences is
    one or more decimal digits followed by [px], and every string of the
    colour sequence is a [#] with three to six hexadecimal digits or an
    [rgb(...)]/[rgba(...)] token.  When no colour token holds a line feed,
    the lines of the file are exactly the three headers, the blank line in
    front of the second and third, and one line [$name: value;] for each
    variable. *)
Theorem C10_tokens_and_lines css vars :
  extractVariables css = Normal vars ->
  Forall px_token (spacing vars) /\
  Forall px_token (breakpoints vars) /\
  Forall color_token (colors vars) /\
  (Forall one_line (colors vars) ->
   lines (generateVariablesFile vars) =
   ("// Color Variables" :: map assignment_line (color_variables vars) ++
    "" :: "// Spacing Variables" ::
      map assignment_line (spacing_variables vars) ++
    "" :: "// Breakpoint Variables" ::
      map assignment_line (breakpoint_variables vars))%list).
Proof.
  intros Hx. pose proof (extractVariables_hits css vars Hx) as Hv.
  assert (Hsp : Forall px_token (spacing vars)).
  { subst vars. cbn [spacing].
    apply sort_Forall, first_occurrences_Forall, hits_Forall.
    exact spacing_hit_token. }
  assert (Hbp : Forall px_token (breakpoints vars)).
  { subst vars. cbn [breakpoints].
    apply sort_Forall, first_occurrences_Forall, hits_Forall.
    exact breakpoint_hit_token. }
  assert (Hco : Forall color_token (colors vars)).
  { subst vars. cbn [colors].
    apply first_occurrences_Forall, hits_Forall. exact color_hit_token. }
  repeat split; try assumption.
  intros Hone. rewrite generateVariablesFile_layout.
  rewrite (lines_cons_line "// Color Variables") by reflexivity.
  rewrite lines_render
    by (apply named_one_line; [apply color_name_one_line | assumption]).
  rewrite lines_blank.
  rewrite (lines_cons_line "// Spacing Variables") by reflexivity.
  rewrite lines_render
    by (apply named_one_line; [apply spacing_name_one_line|];
        eapply Forall_impl; [|exact Hsp]; apply px_token_one_line).
  rewrite lines_blank.
  rewrite (lines_cons_line "// Breakpoint Variables") by reflexivity.
  rewrite <- (append_nil_r (render (breakpoint_variables vars))).
  rewrite lines_render
    by (apply named_one_line; [intros; apply breakpoint_name_one_line|];
        eapply Forall_impl; [|exact Hbp]; apply px_token_one_line).
  cbn [lines]. now rewrite app_nil_r.
Qed.

Lemma C10_tokens_and_lines_witness :
  Forall px_token (spacing (Variables [] ["8px"; "16px"] [])) /\
  lines (generateVariablesFile (Variables [] ["8px"; "16px"] [])) =
    ["// Color Variables"; "";
     "// Spacing Variables"; "$spacing-sm: 8px;"; "$spacing-md: 16px;"; "";
     "// Breakpoint Variables"].
Proof.
  destruct (C10_tokens_and_lines margin_padding
              (Variables [] ["8px"; "16px"] []) eq_refl)
    as (Hsp & _ & _ & Hlines).
  split; [exact Hsp|]. apply Hlines. constructor.
Defined.

(** * Further properties of the scripts *)

(** ** What the traversal does not read *)

Section Unread.

Lemma visit_rule_other st r :
  rule_or_media r = false -> visit_rule st r = Normal st.
Proof.
  unfold rule_or_media, visit_rule, extract_breakpoint. intros H.
  apply orb_false_iff in H as [Hr Hm]. rewrite Hr, Hm. reflexivity.
Qed.

Lemma visit_rule_without_children st r :
  visit_rule st (without_children r) = visit_rule st r.
Proof. reflexivity. Qed.

Lemma forEach_ext {A S} (body body' : S -> A -> completion S) xs :
  (forall s x, body s x = body' s x) ->
  forall s, forEach body xs s = forEach body' xs s.
Proof.
  intros H. induction xs as [|x xs IH]; intros s; simpl; [reflexivity|].
  rewrite H. destruct (body' s x); simpl; [apply IH | reflexivity].
Qed.

Lemma forEach_map {A B S} (f : A -> B) (body : S -> B -> completion S) xs :
  forall s, forEach body (map f xs) s = forEach (fun t x => body t (f x)) xs s.
Proof.
  induction xs as [|x xs IH]; intros s; simpl; [reflexivity|].
  destruct (body s (f x)); simpl; [apply IH | reflexivity].
Qed.

Lemma add_all_known l : forall s,
  (forall x, In x l -> In x s) -> add_all l s = s.
Proof.
  induction l as [|x l IH]; intros s H; [reflexivity|].
  unfold add_all in *. cbn [fold_left].
  assert (Hx : set_add x s = s).
  { unfold set_add.
    now rewrite (proj2 (existsb_eqb_In x s) (H x (or_introl eq_refl))). }
  rewrite Hx. apply IH. intros y Hy. apply H. now right.
Qed.

Lemma add_all_twice l s : add_all l (add_all l s) = add_all l s.
Proof.
  apply add_all_known. intros x Hx. apply add_all_In. now left.
Qed.

End Unread.

(** X1: top-level nodes that are neither rules nor media rules (comments,
    font faces, keyframes, imports, ...) contribute nothing: leaving them
    out of the stylesheet changes neither the variables returned nor
    whether the extraction throws. *)
Theorem X1_other_nodes_ignored rs :
  extractVariables (ParsedCSS (filter rule_or_media rs)) =
  extractVariables (ParsedCSS rs).
Proof.
  unfold extractVariables, scan. cbn [stylesheet_rules]. f_equal.
  generalize (Sets [] [] []).
  induction rs as [|r rs IH]; intros st; [reflexivity|].
  cbn [filter]. destruct (rule_or_media r) eqn:Hr; cbn [forEach].
  - destruct (visit_rule st r); simpl; [apply IH | reflexivity].
  - rewrite (visit_rule_other st r Hr). simpl. apply IH.
Qed.

(** X2: the rules nested in a node are never read: emptying the [rules] of
    every top-level node changes neither the variables returned nor whether
    the extraction throws. *)
Theorem X2_nested_rules_unread rs :
  extractVariables (ParsedCSS (map without_children rs)) =
  extractVariables (ParsedCSS rs).
Proof.
  unfold extractVariables, scan. cbn [stylesheet_rules]. f_equal.
  rewrite forEach_map. apply forEach_ext. intros s x.
  apply visit_rule_without_children.
Qed.

(** X3: a stylesheet whose rules are all repeated a second time yields the
    variables of the stylesheet itself, and throws exactly when it does. *)
Theorem X3_repeated_rules rs :
  extractVariables (ParsedCSS (rs ++ rs)) = extractVariables (ParsedCSS rs).
Proof.
  unfold extractVariables, scan. cbn [stylesheet_rules]. f_equal.
  rewrite forEach_app.
  destruct (forEach visit_rule rs (Sets [] [] [])) as [st|] eqn:H1;
    [|reflexivity].
  cbn [bind].
  destruct (forEach visit_rule rs st) as [st2|] eqn:H2.
  - f_equal. apply forEach_rules_sets in H2.
    apply forEach_rules_sets in H1. cbn [set_colors set_spacing
      set_breakpoints] in H1. subst st.
    cbn [set_colors set_spacing set_breakpoints] in H2.
    now rewrite !add_all_twice in H2.
  - exfalso.
    pose proof (forEach_throws visit_rule raises_rule
                  (fun s x => visit_rule_throws s x)) as Hthrows.
    apply Hthrows in H2. apply (Hthrows rs (Sets [] [] [])) in H2.
    congruence.
Qed.

(** ** How many variables there can be *)

Section Bounds.

Lemma hits_length {A} (f : A -> option string) xs :
  List.length (hits f xs) <= List.length xs.
Proof.
  induction xs as [|x xs IH]; simpl; [lia|].
  rewrite length_app. destruct (f x); simpl; lia.
Qed.

Lemma first_occurrences_length l :
  List.length (first_occurrences l) <= List.length l.
Proof.
  apply NoDup_incl_length; [apply first_occurrences_NoDup|].
  intros x. apply first_occurrences_In.
Qed.

Lemma breakpoint_hits_media rs :
  hits breakpoint_hit rs =
  hits breakpoint_hit (filter (fun r => type r =? "media") rs).
Proof.
  induction rs as [|r rs IH]; [reflexivity|].
  unfold hits in *. cbn [flat_map filter].
  destruct (type r =? "media") eqn:E.
  - cbn [flat_map]. now rewrite IH.
  - unfold breakpoint_hit at 1. rewrite E. simpl. exact IH.
Qed.

End Bounds.

(** X4: a declaration yields at most one colour and at most one spacing
    value, and a media rule at most one breakpoint: the colour and the
    spacing sequences are no longer than the number of members of the
    top-level rules, and the breakpoint sequence no longer than the number
    of top-level media rules. *)
Theorem X4_at_most_one_each css vars :
  extractVariables css = Normal vars ->
  List.length (colors vars) <=
    List.length (flat_map scanned_declarations (stylesheet_rules css)) /\
  List.length (spacing vars) <=
    List.length (flat_map scanned_declarations (stylesheet_rules css)) /\
  List.length (breakpoints vars) <=
    List.length (filter (fun r => type r =? "media") (stylesheet_rules css)).
Proof.
  intros H. apply extractVariables_hits in H. subst vars.
  cbn [colors spacing breakpoints].
  rewrite !(Permutation_length (sort_perm by_parseInt _)).
  repeat split.
  - etransitivity; [apply first_occurrences_length | apply hits_length].
  - etransitivity; [apply first_occurrences_length | apply hits_length].
  - etransitivity; [apply first_occurrences_length|].
    unfold breakpoint_hits. rewrite breakpoint_hits_media. apply hits_length.
Qed.

Lemma X4_at_most_one_each_witness :
  List.length (spacing (Variables [] ["8px"; "16px"] [])) <=
  List.length
    (flat_map scanned_declarations (stylesheet_rules margin_padding)).
Proof.
  apply (X4_at_most_one_each margin_padding
           (Variables [] ["8px"; "16px"] []) eq_refl).
Defined.

(** ** Which variables share a name *)

Section Names.

Lemma index_to_string_inj i j :
  index_to_string i = index_to_string j -> i = j.
Proof.
  unfold index_to_string. intros H.
  apply DecimalNat.Unsigned.to_uint_inj.
  assert (Hnn : forall n, Nat.to_uint n <> Decimal.Nil).
  { intros n Hn. pose proof (DecimalNat.Unsigned.of_to n) as Ho.
    rewrite Hn in Ho. simpl in Ho. subst n. discriminate Hn. }
  pose proof (NilZero.usu _ (Hnn i)) as Hi.
  pose proof (NilZero.usu _ (Hnn j)) as Hj.
  rewrite H in Hi. congruence.
Qed.

Lemma append_inj_l a b c : a ++ b = a ++ c -> b = c.
Proof. induction a as [|x a IH]; simpl; intros H; [|inversion H]; auto. Qed.

Lemma index_to_string_digits i : all_chars is_digit (index_to_string i) = true.
Proof.
  unfold index_to_string, NilZero.string_of_uint.
  generalize (string_of_uint_digits (Nat.to_uint i)).
  destruct (Nat.to_uint i); auto.
Qed.

(** The name of a colour is one of the four fixed names, given to the five
    fixed strings, or the indexed name. *)
Lemma color_name_cases c i :
  (c = "#0d0c0d" /\ color_name c i = "color-dark") \/
  (c = "#f0f0f0" /\ color_name c i = "color-light") \/
  (c = "#e6ac55" /\ color_name c i = "color-accent") \/
  ((c = "#FFFFFF" \/ c = "#ffffff") /\ color_name c i = "color-white") \/
  color_name c i = "color-" ++ index_to_string (i + 1).
Proof.
  unfold color_name.
  destruct (String.eqb_spec c "#FFFFFF") as [->|H1]; [tauto|].
  destruct (String.eqb_spec c "#ffffff") as [->|H2]; [tauto|].
  destruct (String.eqb_spec c "#e6ac55") as [->|H3]; [tauto|].
  destruct (String.eqb_spec c "#f0f0f0") as [->|H4]; [tauto|].
  destruct (String.eqb_spec c "#0d0c0d") as [->|H5]; [tauto|].
  simpl. tauto.
Qed.

(** An indexed name is none of the fixed names. *)
Lemma indexed_name_not_fixed i fixed :
  all_chars is_digit fixed = false ->
  "color-" ++ index_to_string i <> "color-" ++ fixed.
Proof.
  intros Hf H. apply append_inj_l in H.
  rewrite <- H, index_to_string_digits in Hf. discriminate.
Qed.

Lemma spacing_bucket_cases size :
  In (spacing_bucket size) ["none"; "xs"; "sm"; "md"; "lg"; "xl"; "xxl"].
Proof.
  unfold spacing_bucket.
  repeat match goal with
         | |- context [if ?b then _ else _] => destruct b
         end; simpl; tauto.
Qed.

Lemma spacing_name_suffix all val index :
  spacing_name all val index =
  "spacing-" ++ spacing_bucket (parseInt val) ++
  (if has_twin all val then "-" ++ index_to_string index else "").
Proof.
  unfold spacing_name, has_twin. destruct (1 <? _)%nat.
  - now rewrite append_assoc.
  - now rewrite append_nil_r.
Qed.

End Names.

Section Collisions.

Lemma named_nth_inv name xs : forall index i n x,
  nth_error (named name xs index) i = Some (n, x) ->
  nth_error xs i = Some x /\ n = name x (index + i).
Proof.
  induction xs as [|y xs IH]; intros index [|i] n x; simpl; try discriminate.
  - intros H; inversion H; subst. now rewrite Nat.add_0_r.
  - intros H. destruct (IH (S index) i n x H) as [Hx ->].
    split; [assumption | f_equal; lia].
Qed.

End Collisions.

(** X5: two colour variables of one file have the same name only when one
    is [#FFFFFF] and the other [#ffffff]; every other colour has a name of
    its own. *)
Theorem X5_color_names_collide_on_white css vars i j n c1 c2 :
  extractVariables css = Normal vars ->
  nth_error (color_variables vars) i = Some (n, c1) ->
  nth_error (color_variables vars) j = Some (n, c2) ->
  i <> j ->
  (c1 = "#FFFFFF" /\ c2 = "#ffffff") \/ (c1 = "#ffffff" /\ c2 = "#FFFFFF").
Proof.
  intros Hx Hi Hj Hne.
  apply named_nth_inv in Hi as [Hi Hn1]. apply named_nth_inv in Hj as [Hj Hn2].
  simpl in Hn1, Hn2.
  assert (Hnd : NoDup (colors vars)).
  { apply extractVariables_hits in Hx. subst vars.
    apply first_occurrences_NoDup. }
  assert (Hdiff : c1 <> c2).
  { intros ->. apply Hne.
    apply (proj1 (NoDup_nth_error (colors vars)) Hnd); [|congruence].
    apply nth_error_Some. congruence. }
  assert (Hsame : color_name c1 i = color_name c2 j) by congruence.
  clear Hn1 Hn2 Hi Hj Hx Hnd.
  destruct (color_name_cases c1 i) as [[E1 N1]|[[E1 N1]|[[E1 N1]|[[E1 N1]|N1]]]];
    destruct (color_name_cases c2 j)
      as [[E2 N2]|[[E2 N2]|[[E2 N2]|[[E2 N2]|N2]]]];
    rewrite N1, N2 in Hsame;
    try discriminate Hsame;
    try (exfalso; apply Hdiff; congruence);
    try (exfalso; revert Hsame; apply indexed_name_not_fixed; reflexivity);
    try (exfalso; symmetry in Hsame; revert Hsame;
         apply indexed_name_not_fixed; reflexivity).
  - destruct E1 as [-> | ->], E2 as [-> | ->]; try tauto;
      exfalso; now apply Hdiff.
  - exfalso. apply append_inj_l, index_to_string_inj in Hsame. lia.
Qed.

Lemma X5_color_names_collide_on_white_witness :
  ("#FFFFFF" = "#FFFFFF" /\ "#ffffff" = "#ffffff") \/
  ("#FFFFFF" = "#ffffff" /\ "#ffffff" = "#FFFFFF").
Proof.
  apply (X5_color_names_collide_on_white two_whites
           (Variables ["#FFFFFF"; "#ffffff"] [] []) 0 1 "color-white").
  - reflexivity.
  - reflexivity.
  - reflexivity.
  - discriminate.
Defined.

(** X6: two entries of the spacing sequence get the same name exactly when
    they fall in the same bucket and neither has the integer value of
    another entry; in particular two entries of equal integer value never
    share a name. *)
Theorem X6_spacing_name_collisions all i j v w :
  nth_error all i = Some v ->
  nth_error all j = Some w ->
  i <> j ->
  (spacing_name all v i = spacing_name all w j <->
   has_twin all v = false /\ has_twin all w = false /\
   spacing_bucket (parseInt v) = spacing_bucket (parseInt w)) /\
  (numeric v -> parseInt v = parseInt w ->
   spacing_name all v i <> spacing_name all w j).
Proof.
  intros Hi Hj Hne.
  assert (Hiff : spacing_name all v i = spacing_name all w j <->
                 has_twin all v = false /\ has_twin all w = false /\
                 spacing_bucket (parseInt v) = spacing_bucket (parseInt w)).
  { rewrite !spacing_name_suffix.
    pose proof (spacing_bucket_cases (parseInt v)) as Hb1.
    pose proof (spacing_bucket_cases (parseInt w)) as Hb2.
    destruct (has_twin all v), (has_twin all w);
      cbn [In] in Hb1, Hb2; split_cases Hb1; split_cases Hb2;
      rewrite <- Hb1, <- Hb2;
      (split; [intros H | intros (H1 & H2 & H3)]);
      try discriminate; try reflexivity;
      try (repeat split; reflexivity);
      try (cbn in H; discriminate H);
      try (cbn in H3; discriminate H3);
      exfalso;
      repeat (apply append_inj_l in H);
      apply index_to_string_inj in H; contradiction. }
  split; [exact Hiff|].
  intros [n Hn] Hvw Hsame. apply Hiff in Hsame as (Htwin & _).
  unfold has_twin in Htwin. apply Nat.ltb_ge in Htwin.
  assert (Hgt : 1 < List.length
                      (filter (fun s => num_eq (parseInt s) (parseInt v)) all)).
  { apply (filter_more_than_one _ all i v Hi).
    - rewrite Hn. now apply num_eq_true_iff.
    - exists j, w. repeat split; auto.
      rewrite <- Hvw, Hn. now apply num_eq_true_iff. }
  lia.
Qed.

Lemma X6_spacing_name_collisions_witness :
  spacing_name ["8px"; "08px"] "8px" 0 <> spacing_name ["8px"; "08px"] "08px" 1.
Proof.
  apply (X6_spacing_name_collisions ["8px"; "08px"] 0 1 "8px" "08px").
  - reflexivity.
  - reflexivity.
  - discriminate.
  - now exists 8%N.
  - reflexivity.
Defined.

(** ** The main file *)

Section MainFile.

Variable toUpperCase : string -> string.

Lemma fold_import_sections dirs : forall imports,
  fold_left (import_section toUpperCase) dirs imports =
  imports ++ concat_text (map (main_section toUpperCase) dirs).
Proof.
  induction dirs as [|d dirs IH]; intros imports; cbn [fold_left map concat_text].
  - now rewrite append_nil_r.
  - rewrite IH. unfold import_section, main_section.
    now rewrite !append_assoc.
Qed.

Lemma generateMainFile_layout dirs :
  generateMainFile toUpperCase dirs =
  main_header ++
  concat_text (map (main_section toUpperCase)
                   (filter (fun dir => negb (dir =? "base")) dirs)).
Proof.
  unfold generateMainFile. rewrite fold_import_sections.
  unfold main_header. now rewrite !append_assoc.
Qed.

Lemma concat_text_app a b :
  concat_text (a ++ b)%list = concat_text a ++ concat_text b.
Proof.
  induction a as [|x a IH]; simpl; [reflexivity|].
  now rewrite IH, append_assoc.
Qed.

End MainFile.

(** X7: the main file is the fixed header with the four base imports
    followed, for every directory other than [base] and in the order of the
    list, by a comment line with the capitalised name, the wildcard import
    of the directory and a blank line; an entry [base] gets no section,
    wherever and however often it stands in the list. *)
Theorem X7_main_file_sections toUpperCase :
  (forall dirs,
     generateMainFile toUpperCase dirs =
     main_header ++
     concat_text (map (main_section toUpperCase)
                      (filter (fun dir => negb (dir =? "base")) dirs))) /\
  (forall before after,
     generateMainFile toUpperCase (before ++ "base" :: after) =
     generateMainFile toUpperCase (before ++ after)) /\
  (forall dirs dir,
     dir <> "base" ->
     generateMainFile toUpperCase (dirs ++ [dir]) =
     generateMainFile toUpperCase dirs ++ main_section toUpperCase dir).
Proof.
  split; [apply generateMainFile_layout|]. split.
  - intros before after. rewrite !generateMainFile_layout.
    now rewrite !filter_app.
  - intros dirs dir Hne. rewrite !generateMainFile_layout.
    rewrite filter_app. cbn [filter].
    apply String.eqb_neq in Hne. rewrite Hne. cbn [negb].
    rewrite map_app, concat_text_app. cbn [map concat_text].
    now rewrite append_nil_r, append_assoc.
Qed.

Lemma X7_main_file_sections_witness :
  generateMainFile ascii_toUpperCase (["base"; "components"] ++ ["layout"]) =
  generateMainFile ascii_toUpperCase ["base"; "components"] ++
  main_section ascii_toUpperCase "layout".
Proof.
  destruct (X7_main_file_sections ascii_toUpperCase) as (_ & _ & H).
  apply (H ["base"; "components"] "layout"). discriminate.
Defined.

(** ** The matches of a pattern in a text *)

Section Pieces.

Lemma lit_splits p : splits (lit p).
Proof.
  intros s m r. unfold lit. destruct (strip_prefix p s) as [t|] eqn:E;
    [|discriminate].
  intros H; inversion H; subst. now apply strip_prefix_spec.
Qed.

Lemma one_of_splits cls : splits (one_of cls).
Proof.
  intros [|c s] m r; simpl; [discriminate|].
  destruct (cls c); [|discriminate]. intros H; inversion H; reflexivity.
Qed.

Lemma star_splits cls : splits (star cls).
Proof.
  intros s m r. unfold star. intros H; inversion H as [Hs].
  now apply span_spec in Hs.
Qed.

Lemma plus_splits cls : splits (plus cls).
Proof.
  intros s m r. unfold plus. destruct (span cls s) as [a t] eqn:Hs.
  destruct (1 <=? String.length a)%nat; [|discriminate].
  intros H; inversion H; subst. now apply span_spec in Hs.
Qed.

Lemma seq_splits items : Forall splits items -> splits (seq items).
Proof.
  induction 1 as [|i items Hi _ IH]; intros s m r; simpl.
  - intros H; inversion H; reflexivity.
  - destruct (i s) as [[a t]|] eqn:Ei; [|discriminate].
    destruct (seq items t) as [[b t']|] eqn:Es; [|discriminate].
    intros H; inversion H; subst.
    rewrite (Hi _ _ _ Ei), (IH _ _ _ Es). now rewrite append_assoc.
Qed.

Lemma px_length_splits : Forall splits px_length.
Proof.
  repeat constructor;
    auto using lit_splits, star_splits, plus_splits.
Qed.

Lemma box_at_splits name : splits (box_at name).
Proof.
  apply seq_splits. constructor; [apply lit_splits|].
  constructor; [apply one_of_splits|].
  repeat (apply Forall_app; split); apply px_length_splits.
Qed.

Lemma media_at_splits : splits media_at.
Proof.
  apply seq_splits.
  repeat constructor;
    auto using lit_splits, star_splits, plus_splits.
Qed.

Lemma seq_cons i rest s m r :
  seq (i :: rest) s = Some (m, r) ->
  exists a t b, i s = Some (a, t) /\ seq rest t = Some (b, r) /\ m = a ++ b.
Proof.
  cbn [seq]. destruct (i s) as [[a t]|] eqn:Ei; [|discriminate].
  destruct (seq rest t) as [[b r']|] eqn:Es; [|discriminate].
  intros H; inversion H; subst. exists a, t, b. repeat split; assumption.
Qed.

(** A match of a box pattern starts with the property name. *)
Lemma box_at_prefix name s m r :
  box_at name s = Some (m, r) -> exists t, m = name ++ t /\ t <> "".
Proof.
  unfold box_at. intros H.
  apply seq_cons in H as (a & t & b & Ha & Hb & ->).
  apply seq_cons in Hb as (a' & t' & b' & Ha' & _ & ->).
  unfold lit in Ha. destruct (strip_prefix name s); [|discriminate].
  inversion Ha; subst. exists (a' ++ b'). split; [reflexivity|].
  destruct t as [|c t]; simpl in Ha'; [discriminate|].
  destruct (colon_or_hyphen c); [|discriminate].
  inversion Ha'; subst. discriminate.
Qed.

Lemma media_at_prefix s m r :
  media_at s = Some (m, r) -> exists t, m = "@media" ++ t.
Proof.
  unfold media_at. intros H.
  apply seq_cons in H as (a & t & b & Ha & _ & ->).
  unfold lit in Ha. destruct (strip_prefix "@media" s); [|discriminate].
  inversion Ha; subst. now exists b.
Qed.

End Pieces.

Section Matches.

Variable pat : item.
Hypothesis pat_splits : splits pat.
Hypothesis pat_nonempty : forall s m r, pat s = Some (m, r) -> m <> "".

Lemma find_first_some : forall s pre m r,
  find_first pat s = Some (pre, m, r) ->
  s = pre ++ m ++ r /\
  pat (m ++ r) = Some (m, r) /\
  (forall a b, pre = a ++ b -> b <> "" -> pat (b ++ m ++ r) = None).
Proof.
  induction s as [|c s IH]; intros pre m r; cbn [find_first].
  - destruct (pat "") as [[m' r']|] eqn:E; [|discriminate].
    intros H; inversion H; subst. pose proof (pat_splits _ _ _ E) as Hs.
    cbn [append]. rewrite <- Hs. repeat split; auto.
    intros [|x a] [|y b]; cbn; try discriminate. now intros _ Hb.
  - destruct (pat (String c s)) as [[m' r']|] eqn:E.
    + intros H; inversion H; subst. pose proof (pat_splits _ _ _ E) as Hs.
      cbn [append]. rewrite <- Hs. repeat split; auto.
      intros [|x a] [|y b]; cbn; try discriminate. now intros _ Hb.
    + destruct (find_first pat s) as [[[pre' m'] r']|] eqn:Ef; [|discriminate].
      intros H; inversion H; subst.
      destruct (IH _ _ _ eq_refl) as (Hs & Hm & Hfirst). subst s.
      repeat split; auto.
      intros [|x a] b Hab Hb.
      * cbn [append] in Hab. subst b. exact E.
      * cbn [append] in Hab. inversion Hab; subst.
        exact (Hfirst a b eq_refl Hb).
Qed.

Lemma find_first_none : forall s,
  find_first pat s = None -> forall pre r, s = pre ++ r -> pat r = None.
Proof.
  induction s as [|c s IH]; cbn [find_first].
  - destruct (pat "") as [[m' r']|] eqn:E; [discriminate|].
    intros _ [|x pre] r; cbn; [now intros <- | discriminate].
  - destruct (pat (String c s)) as [[m' r']|] eqn:E; [discriminate|].
    destruct (find_first pat s) as [[[pre' m'] r']|] eqn:Ef; [discriminate|].
    intros _ [|x pre] r; cbn [append].
    + now intros <-.
    + intros H; inversion H; subst. now apply (IH eq_refl pre r).
Qed.

Lemma exec_loop_successive : forall fuel s,
  String.length s < fuel -> successive pat s (exec_loop fuel pat s).
Proof.
  induction fuel as [|fuel IH]; intros s Hlt; [lia|].
  cbn [exec_loop]. destruct (find_first pat s) as [[[pre m] r]|] eqn:E.
  - destruct (find_first_some _ _ _ _ E) as (-> & Hm & Hfirst).
    apply successive_match; auto. apply IH.
    pose proof (pat_nonempty _ _ _ Hm) as Hne.
    rewrite !length_append in Hlt. destruct m; [congruence|]. simpl in Hlt. lia.
  - apply successive_none. now apply find_first_none.
Qed.

Lemma exec_loop_fuel : forall f1 f2 s,
  String.length s < f1 -> String.length s < f2 ->
  exec_loop f1 pat s = exec_loop f2 pat s.
Proof.
  induction f1 as [|f1 IH]; intros [|f2] s H1 H2; try lia.
  cbn [exec_loop]. destruct (find_first pat s) as [[[pre m] r]|] eqn:E;
    [|reflexivity].
  destruct (find_first_some _ _ _ _ E) as (-> & Hm & _).
  pose proof (pat_nonempty _ _ _ Hm) as Hne.
  rewrite !length_append in H1, H2.
  f_equal. apply IH; destruct m; try congruence; simpl in *; lia.
Qed.

End Matches.

Section PatternsOfFindPatterns.

Lemma box_at_nonempty name s m r : box_at name s = Some (m, r) -> m <> "".
Proof.
  intros H. apply box_at_prefix in H as (t & -> & Ht).
  destruct name; simpl; [assumption | discriminate].
Qed.

Lemma media_at_nonempty s m r : media_at s = Some (m, r) -> m <> "".
Proof. intros H. apply media_at_prefix in H as (t & ->). discriminate. Qed.

End PatternsOfFindPatterns.

(** X8: the matches the three [exec] loops of [findPatterns] go through are
    the successive matches of their pattern in the text: each one is the
    leftmost match in what the previous match left over, the search ends
    only when nothing more matches, and a bound on the number of rounds
    above the length of the text never cuts the loop short. *)
Theorem X8_exec_loops_find_successive_matches css :
  successive (box_at "margin") css (exec_all (box_at "margin") css) /\
  successive (box_at "padding") css (exec_all (box_at "padding") css) /\
  successive media_at css (exec_all media_at css) /\
  (forall pat fuel,
     In pat [box_at "margin"; box_at "padding"; media_at] ->
     String.length css < fuel ->
     exec_loop fuel pat css = exec_all pat css).
Proof.
  unfold exec_all. repeat split.
  - apply exec_loop_successive;
      [apply box_at_splits | apply box_at_nonempty | lia].
  - apply exec_loop_successive;
      [apply box_at_splits | apply box_at_nonempty | lia].
  - apply exec_loop_successive;
      [apply media_at_splits | apply media_at_nonempty | lia].
  - intros pat fuel Hin Hlt. cbn [In] in Hin. split_cases Hin; subst pat.
    + apply exec_loop_fuel with (pat := box_at "margin"); try lia;
        [apply box_at_splits | apply box_at_nonempty].
    + apply exec_loop_fuel with (pat := box_at "padding"); try lia;
        [apply box_at_splits | apply box_at_nonempty].
    + apply exec_loop_fuel with (pat := media_at); try lia;
        [apply media_at_splits | apply media_at_nonempty].
Qed.

Lemma X8_exec_loops_find_successive_matches_witness :
  exec_loop 40 media_at "@media (a) {b} x" = exec_all media_at "@media (a) {b} x".
Proof.
  destruct (X8_exec_loops_find_successive_matches "@media (a) {b} x")
    as (_ & _ & _ & H).
  apply (H media_at 40); simpl; [tauto | lia].
Defined.

(** ** Counting and reporting *)

Section Counting.

Lemma bump_keys key obj : map fst (bump key obj) = set_add key (map fst obj).
Proof.
  unfold set_add. induction obj as [|[k n] obj IH]; [reflexivity|].
  cbn [bump map fst existsb].
  rewrite (String.eqb_sym key k). destruct (k =? key) eqn:E; [reflexivity|].
  cbn [map fst orb]. rewrite IH.
  now destruct (existsb (String.eqb key) (map fst obj)).
Qed.

Lemma count_of_bump key k obj :
  count_of k (bump key obj) =
  count_of k obj + (if key =? k then 1 else 0).
Proof.
  unfold count_of. induction obj as [|[k' n] obj IH]; cbn [bump find fst].
  - destruct (key =? k); reflexivity.
  - destruct (k' =? key) eqn:E1; cbn [find fst snd].
    + apply String.eqb_eq in E1. subst k'.
      destruct (key =? k); cbn [snd]; lia.
    + destruct (k' =? k) eqn:E2; cbn [snd]; [|exact IH].
      apply String.eqb_eq in E2. subst k'. rewrite String.eqb_sym, E1. lia.
Qed.

Lemma tally_keys_from keys : forall obj,
  map fst (fold_left (fun o key => bump key o) keys obj) =
  add_all keys (map fst obj).
Proof.
  induction keys as [|key keys IH]; intros obj; [reflexivity|].
  cbn [fold_left]. rewrite IH, bump_keys. reflexivity.
Qed.

Lemma tally_keys keys : map fst (tally keys) = first_occurrences keys.
Proof. unfold tally. now rewrite tally_keys_from, add_all_nil. Qed.

Lemma tally_count_from keys k : forall obj,
  count_of k (fold_left (fun o key => bump key o) keys obj) =
  count_of k obj + count_occ string_dec keys k.
Proof.
  induction keys as [|key keys IH]; intros obj; cbn [fold_left count_occ].
  - lia.
  - rewrite IH, count_of_bump.
    destruct (string_dec key k) as [->|Hne].
    + rewrite String.eqb_refl. lia.
    + apply String.eqb_neq in Hne. rewrite Hne. lia.
Qed.

Lemma tally_count keys k :
  count_of k (tally keys) = count_occ string_dec keys k.
Proof. unfold tally. now rewrite tally_count_from. Qed.

Lemma count_of_entry obj k n :
  NoDup (map fst obj) -> In (k, n) obj -> count_of k obj = n.
Proof.
  unfold count_of. induction obj as [|[k' n'] obj IH]; [intros _ []|].
  cbn [map fst find]. intros Hnd Hin. inversion Hnd as [|? ? Hk Hnd']; subst.
  destruct Hin as [Heq|Hin].
  - inversion Heq; subst. now rewrite String.eqb_refl.
  - destruct (String.eqb_spec k' k) as [->|Hne].
    + exfalso. apply Hk. now apply (in_map fst obj (k, n)).
    + now apply IH.
Qed.

Lemma count_of_found obj k :
  In k (map fst obj) -> In (k, count_of k obj) obj.
Proof.
  unfold count_of. induction obj as [|[k' n'] obj IH]; [intros []|].
  cbn [map fst find]. intros [->|Hin].
  - rewrite String.eqb_refl. now left.
  - destruct (String.eqb_spec k' k) as [->|Hne]; [now left|].
    right. now apply IH.
Qed.

(** The entries of a counting loop: the keys once each, with the number of
    times they came. *)
Lemma tally_entry keys k n :
  In (k, n) (tally keys) <-> In k keys /\ n = count_occ string_dec keys k.
Proof.
  split.
  - intros Hin. split.
    + apply first_occurrences_In. rewrite <- tally_keys.
      now apply (in_map fst (tally keys) (k, n)).
    + rewrite <- tally_count. symmetry. apply count_of_entry; auto.
      rewrite tally_keys. apply first_occurrences_NoDup.
  - intros [Hin ->]. rewrite <- tally_count. apply count_of_found.
    rewrite tally_keys. now apply first_occurrences_In.
Qed.

End Counting.

(** X9: at the end of a counting loop of [findPatterns] the object holds
    each text that came up exactly once as a key, in the order in which
    the texts first came up, with the number of times it came up. *)
Theorem X9_counting_loop keys :
  map fst (tally keys) = first_occurrences keys /\
  NoDup (map fst (tally keys)) /\
  (forall k n,
     In (k, n) (tally keys) <->
     In k keys /\ n = count_occ string_dec keys k) /\
  (forall k, ~ In k keys -> count_of k (tally keys) = 0).
Proof.
  split; [apply tally_keys|]. split.
  - rewrite tally_keys. apply first_occurrences_NoDup.
  - split; [apply tally_entry|].
    intros k Hk. rewrite tally_count. now apply count_occ_not_In.
Qed.

Lemma X9_counting_loop_witness :
  In ("a", 2) (tally ["a"; "b"; "a"]).
Proof.
  destruct (X9_counting_loop ["a"; "b"; "a"]) as (_ & _ & H & _).
  apply H. split; [now left | reflexivity].
Defined.

Section Reporting.

Lemma insert_entry_perm x l : Permutation (insert_entry x l) (x :: l).
Proof.
  induction l as [|y l IH]; simpl; [reflexivity|].
  destruct (by_count_desc x y); try reflexivity.
  rewrite IH. apply perm_swap.
Qed.

Lemma sort_entries_perm l : Permutation (sort_entries l) l.
Proof.
  induction l as [|x l IH]; simpl; [reflexivity|].
  rewrite insert_entry_perm. now constructor.
Qed.

Lemma insert_entry_sorted x l :
  StronglySorted at_least_as_often l ->
  StronglySorted at_least_as_often (insert_entry x l).
Proof.
  unfold at_least_as_often.
  induction 1 as [|y l Hs IH Hy]; simpl; [repeat constructor|].
  unfold by_count_desc. destruct (Nat.compare_spec (snd y) (snd x)) as [E|E|E].
  - constructor; [now constructor|]. constructor; [lia|].
    eapply Forall_impl; [|exact Hy]. simpl. intros z Hz. lia.
  - constructor; [now constructor|]. constructor; [lia|].
    eapply Forall_impl; [|exact Hy]. simpl. intros z Hz. lia.
  - constructor; [exact IH|].
    eapply Permutation_Forall; [symmetry; apply insert_entry_perm|].
    constructor; [lia | exact Hy].
Qed.

Lemma sort_entries_sorted l :
  StronglySorted at_least_as_often (sort_entries l).
Proof.
  induction l as [|x l IH]; simpl; [constructor|].
  now apply insert_entry_sorted.
Qed.

Lemma sorted_app_cross {A} (R : A -> A -> Prop) a b :
  StronglySorted R (a ++ b) ->
  StronglySorted R a /\ forall x y, In x a -> In y b -> R x y.
Proof.
  induction a as [|z a IH]; simpl; intros H.
  - split; [constructor | intros x y []].
  - inversion H as [|? ? Hs Hall]; subst. destruct (IH Hs) as [Ha Hcross].
    apply Forall_app in Hall as [Hza Hzb]. split.
    + now constructor.
    + intros x y [<-|Hx] Hy; [|now apply Hcross].
      rewrite Forall_forall in Hzb. now apply Hzb.
Qed.

End Reporting.

(** X10: of the texts counted, [findPatterns] reports the five that came up
    most often, or all of them when there are fewer: each text at most
    once, with the number of times it came up, the more frequent first, and
    no text left out came up more often than a text reported. *)
Theorem X10_five_most_frequent keys :
  List.length (top5 (tally keys)) =
    Nat.min 5 (List.length (first_occurrences keys)) /\
  StronglySorted at_least_as_often (top5 (tally keys)) /\
  NoDup (map fst (top5 (tally keys))) /\
  (forall p c, In (p, c) (top5 (tally keys)) ->
     In p keys /\ c = count_occ string_dec keys p) /\
  (forall p c q,
     In (p, c) (top5 (tally keys)) -> In q keys ->
     ~ In q (map fst (top5 (tally keys))) ->
     count_occ string_dec keys q <= c).
Proof.
  unfold top5.
  pose proof (firstn_skipn 5 (sort_entries (tally keys))) as Hsplit.
  pose proof (sort_entries_sorted (tally keys)) as Hsorted.
  rewrite <- Hsplit in Hsorted.
  apply sorted_app_cross in Hsorted as [Hfirst Hcross].
  assert (Hin : forall e, In e (firstn 5 (sort_entries (tally keys))) ->
                          In e (tally keys)).
  { intros e He. apply (Permutation_in e (sort_entries_perm (tally keys))).
    rewrite <- Hsplit. apply in_or_app. now left. }
  split; [|split; [exact Hfirst|split; [|split]]].
  - rewrite length_firstn.
    rewrite (Permutation_length (sort_entries_perm (tally keys))).
    rewrite <- (length_map fst), tally_keys. reflexivity.
  - apply (NoDup_app_remove_r _
             (map fst (skipn 5 (sort_entries (tally keys))))).
    rewrite <- map_app, Hsplit.
    apply (Permutation_NoDup
             (Permutation_map fst
                (Permutation_sym (sort_entries_perm (tally keys))))).
    rewrite tally_keys. apply first_occurrences_NoDup.
  - intros p c Hp. now apply tally_entry, Hin.
  - intros p c q Hp Hq Hnot.
    assert (Hq' : In (q, count_occ string_dec keys q) (tally keys))
      by now apply tally_entry.
    apply (Permutation_in _ (Permutation_sym (sort_entries_perm (tally keys))))
      in Hq'.
    rewrite <- Hsplit in Hq'. apply in_app_or in Hq' as [Hq'|Hq'].
    + exfalso. apply Hnot.
      now apply (in_map fst _ (q, count_occ string_dec keys q)).
    + apply (Hcross _ _ Hp Hq').
Qed.

Lemma X10_five_most_frequent_witness :
  In "b" ["a"; "b"; "b"] /\ 2 = count_occ string_dec ["a"; "b"; "b"] "b".
Proof.
  destruct (X10_five_most_frequent ["a"; "b"; "b"]) as (_ & _ & _ & H & _).
  apply (H "b" 2). now left.
Defined.

(** X11: a media query is listed as duplicated exactly when it came up three
    times or more: one that came up twice is not listed.  The queries
    listed stand in the order in which they first came up. *)
Theorem X11_duplicated_from_three keys :
  (forall q n,
     In (q, n) (duplicated (tally keys)) <->
     In q keys /\ n = count_occ string_dec keys q /\ 3 <= n) /\
  map fst (duplicated (tally keys)) =
    filter (fun q => (2 <? count_occ string_dec keys q)%nat)
           (first_occurrences keys).
Proof.
  split.
  - intros q n. unfold duplicated. rewrite filter_In, tally_entry.
    cbn [snd]. rewrite Nat.ltb_lt. intuition lia.
  - rewrite <- tally_keys. unfold duplicated.
    assert (Hall : forall e, In e (tally keys) ->
                             snd e = count_occ string_dec keys (fst e)).
    { intros [k n] He. now apply tally_entry in He. }
    induction (tally keys) as [|e obj IH]; [reflexivity|].
    cbn [filter map]. rewrite <- (Hall e) by now left.
    destruct (2 <? snd e)%nat; cbn [map]; rewrite IH; auto.
    + intros e' He'. apply Hall. now right.
    + intros e' He'. apply Hall. now right.
Qed.

Lemma X11_duplicated_from_three_witness :
  ~ In ("q", 2) (duplicated (tally ["q"; "q"])).
Proof.
  destruct (X11_duplicated_from_three ["q"; "q"]) as [H _].
  intros Hin. apply H in Hin as (_ & _ & Hle). lia.
Defined.

(** ** What is counted *)

Section Counted.

Lemma seq_app a b : forall s m r,
  seq (a ++ b)%list s = Some (m, r) ->
  exists m1 t m2,
    seq a s = Some (m1, t) /\ seq b t = Some (m2, r) /\ m = m1 ++ m2.
Proof.
  induction a as [|i a IH]; intros s m r H.
  - exists "", s, m. repeat split. exact H.
  - cbn [app] in H. apply seq_cons in H as (x & t & y & Hi & Hrest & ->).
    apply IH in Hrest as (m1 & t' & m2 & Ha & Hb & ->).
    exists (x ++ m1), t', m2. cbn [seq]. rewrite Hi, Ha.
    repeat split; [assumption | now rewrite append_assoc].
Qed.

Lemma seq_px_length s m r :
  seq px_length s = Some (m, r) -> px_length_text m.
Proof.
  unfold px_length. intros H.
  apply seq_cons in H as (w & t1 & m1 & Hw & H & ->).
  apply seq_cons in H as (d & t2 & m2 & Hd & H & ->).
  apply seq_cons in H as (p & t3 & m3 & Hp & H & ->).
  cbn [seq] in H. inversion H; subst.
  unfold star in Hw. inversion Hw as [Hsw]. apply span_spec in Hsw as (_ & Hws & _).
  unfold plus in Hd. destruct (span is_digit t1) as [d' r'] eqn:Hsd.
  destruct (1 <=? String.length d')%nat eqn:Hl; [|discriminate].
  inversion Hd; subst. apply span_spec in Hsd as (_ & Hds & _).
  apply Nat.leb_le in Hl.
  unfold lit in Hp. destruct (strip_prefix "px" t2); [|discriminate].
  inversion Hp; subst.
  exists w, d. rewrite append_nil_r. auto.
Qed.

Lemma box_at_text name s m r : box_at name s = Some (m, r) -> box_text name m.
Proof.
  unfold box_at. intros H.
  apply seq_cons in H as (a & t & b & Ha & H & ->).
  apply seq_cons in H as (sep & t' & b' & Hsep & H & ->).
  apply seq_app in H as (m1 & u1 & b1 & H1 & H & ->).
  apply seq_app in H as (m2 & u2 & b2 & H2 & H & ->).
  apply seq_app in H as (m3 & u3 & m4 & H3 & H4 & ->).
  unfold lit in Ha. destruct (strip_prefix name s); [|discriminate].
  inversion Ha; subst.
  exists sep, m1, m2, m3, m4. split; [reflexivity|]. split.
  - destruct t as [|c t]; simpl in Hsep; [discriminate|].
    unfold colon_or_hyphen in Hsep.
    destruct (Ascii.eqb_spec c ":") as [->|]; simpl in Hsep.
    + inversion Hsep. now left.
    + destruct (Ascii.eqb_spec c "-") as [->|]; [|discriminate].
      inversion Hsep. now right.
  - repeat split; eapply seq_px_length; eassumption.
Qed.

Lemma successive_In pat s ms :
  successive pat s ms ->
  forall m, In m ms -> occurs_in m s /\ exists r, pat (m ++ r) = Some (m, r).
Proof.
  induction 1 as [s Hnone | pre m r ms Hfirst Hm Hrest IH]; intros x Hx.
  - destruct Hx.
  - destruct Hx as [<-|Hx].
    + split; [now exists pre, r | now exists r].
    + destruct (IH x Hx) as [(a & b & ->) Hex]. split; [|exact Hex].
      exists (pre ++ m ++ a), b. now rewrite !append_assoc.
Qed.

End Counted.

(** X12: every text counted as a margin or padding pattern occurs in the
    stylesheet and is the property name, a colon or a hyphen, and four
    lengths in [px], each after optional white space. *)
Theorem X12_counted_patterns name css m :
  In m (exec_all (box_at name) css) ->
  occurs_in m css /\ box_text name m.
Proof.
  intros Hin.
  assert (Hs : successive (box_at name) css (exec_all (box_at name) css)).
  { apply exec_loop_successive;
      [apply box_at_splits | apply box_at_nonempty | lia]. }
  destruct (successive_In _ _ _ Hs m Hin) as [Ho [r Hr]].
  split; [exact Ho | now apply (box_at_text name (m ++ r) m r)].
Qed.

Lemma X12_counted_patterns_witness :
  occurs_in "margin: 1px 2px 3px 4px" "a{margin: 1px 2px 3px 4px}" /\
  box_text "margin" "margin: 1px 2px 3px 4px".
Proof.
  apply (X12_counted_patterns "margin" "a{margin: 1px 2px 3px 4px}").
  now left.
Defined.

Section NothingToReport.

Lemma includes_suffix p pre : forall r,
  prefix p r = true -> includes (pre ++ r) p = true.
Proof.
  induction pre as [|c pre IH]; intros r H; cbn [append].
  - destruct r; cbn [includes]; rewrite H; reflexivity.
  - cbn [includes]. rewrite (IH r H). apply orb_true_r.
Qed.

Lemma lit_seq_includes p rest s pre m r :
  seq (lit p :: rest) s = Some (m, r) -> includes (pre ++ s) p = true.
Proof.
  intros H. apply seq_cons in H as (a & t & b & Ha & _ & _).
  unfold lit in Ha. destruct (strip_prefix p s) as [t'|] eqn:E; [|discriminate].
  apply strip_prefix_spec in E. subst s.
  apply includes_suffix, prefix_append.
Qed.

Lemma find_first_nothing pat : forall s,
  (forall pre r, s = pre ++ r -> pat r = None) -> find_first pat s = None.
Proof.
  induction s as [|c s IH]; intros H; cbn [find_first].
  - now rewrite (H "" "" eq_refl).
  - rewrite (H "" (String c s) eq_refl). rewrite IH; [reflexivity|].
    intros pre r ->. now apply (H (String c pre) r).
Qed.

Lemma exec_all_nothing p rest css :
  includes css p = false -> exec_all (seq (lit p :: rest)) css = [].
Proof.
  intros Hno. unfold exec_all. cbn [exec_loop].
  rewrite find_first_nothing; [reflexivity|].
  intros pre r ->. destruct (seq (lit p :: rest) r) as [[m t]|] eqn:E;
    [|reflexivity].
  apply (lit_seq_includes p rest r pre) in E. congruence.
Qed.

End NothingToReport.

(** X13: for a stylesheet in which neither [margin], [padding] nor [@media]
    occurs, [findPatterns] prints its three headings and nothing else. *)
Theorem X13_nothing_to_report css :
  includes css "margin" = false ->
  includes css "padding" = false ->
  includes css "@media" = false ->
  findPatterns css =
    ["Common margin patterns:"; "Common padding patterns:";
     nl ++ "Duplicated media queries:"].
Proof.
  intros Hm Hp Hq. unfold findPatterns, box_at, media_at.
  now rewrite !exec_all_nothing by assumption.
Qed.

Lemma X13_nothing_to_report_witness :
  findPatterns "a { color: red }" =
    ["Common margin patterns:"; "Common padding patterns:";
     nl ++ "Duplicated media queries:"].
Proof.
  apply X13_nothing_to_report; reflexivity.
Defined.

(** ** Fixed names and the order of the buckets *)

Section FixedNames.

Lemma named_name_In name xs n :
  In n (map fst (named name xs 0)) <->
  exists i x, nth_error xs i = Some x /\ n = name x i.
Proof.
  split.
  - intros H. apply in_map_iff in H as ([n' x] & Hn & Hin). simpl in Hn.
    subst n'. apply named_In in Hin as (i & Hi & ->). now exists i, x.
  - intros (i & x & Hi & ->).
    apply (in_map fst _ (name x i, x)).
    apply (nth_error_In _ i). apply (named_nth name xs 0 i x Hi).
Qed.

Lemma fixed_color_name fixed c i :
  all_chars is_digit fixed = false ->
  color_name c i = "color-" ++ fixed ->
  (fixed = "dark" /\ c = "#0d0c0d") \/
  (fixed = "light" /\ c = "#f0f0f0") \/
  (fixed = "accent" /\ c = "#e6ac55") \/
  (fixed = "white" /\ (c = "#FFFFFF" \/ c = "#ffffff")).
Proof.
  intros Hf H.
  destruct (color_name_cases c i) as [[E N]|[[E N]|[[E N]|[[E N]|N]]]];
    rewrite N in H.
  - apply (append_inj_l "color-") in H. auto.
  - apply (append_inj_l "color-") in H. auto.
  - apply (append_inj_l "color-") in H. auto.
  - apply (append_inj_l "color-") in H. auto.
  - exfalso. revert H. now apply indexed_name_not_fixed.
Qed.

Lemma sorted_nth {A} (R : A -> A -> Prop) l :
  StronglySorted R l ->
  forall i j a b, i < j -> nth_error l i = Some a -> nth_error l j = Some b ->
                  R a b.
Proof.
  induction 1 as [|x l Hs IH Hx]; intros i j a b Hlt Hi Hj.
  - destruct i; discriminate.
  - destruct j as [|j]; [lia|]. simpl in Hj. destruct i as [|i].
    + simpl in Hi. inversion Hi; subst.
      rewrite Forall_forall in Hx. apply Hx. now apply (nth_error_In l j).
    + simpl in Hi. apply (IH i j); auto. lia.
Qed.

End FixedNames.

(** X14: the variable [color-dark] is written exactly when [#0d0c0d] is one
    of the colours, [color-light] exactly when [#f0f0f0] is,
    [color-accent] exactly when [#e6ac55] is, and [color-white] exactly
    when [#FFFFFF] or [#ffffff] is. *)
Theorem X14_fixed_color_names vars :
  (In "color-dark" (map fst (color_variables vars)) <->
   In "#0d0c0d" (colors vars)) /\
  (In "color-light" (map fst (color_variables vars)) <->
   In "#f0f0f0" (colors vars)) /\
  (In "color-accent" (map fst (color_variables vars)) <->
   In "#e6ac55" (colors vars)) /\
  (In "color-white" (map fst (color_variables vars)) <->
   In "#FFFFFF" (colors vars) \/ In "#ffffff" (colors vars)).
Proof.
  unfold color_variables.
  assert (Hto : forall fixed,
            all_chars is_digit fixed = false ->
            In ("color-" ++ fixed) (map fst (named color_name (colors vars) 0)) ->
            exists c, In c (colors vars) /\
              ((fixed = "dark" /\ c = "#0d0c0d") \/
               (fixed = "light" /\ c = "#f0f0f0") \/
               (fixed = "accent" /\ c = "#e6ac55") \/
               (fixed = "white" /\ (c = "#FFFFFF" \/ c = "#ffffff")))).
  { intros fixed Hf H. apply named_name_In in H as (i & c & Hi & Hn).
    exists c. split; [now apply (nth_error_In _ i)|].
    now apply (fixed_color_name fixed c i). }
  assert (Hfrom : forall c n,
            (forall i, color_name c i = n) -> In c (colors vars) ->
            In n (map fst (named color_name (colors vars) 0))).
  { intros c n Hn Hin. apply In_nth_error in Hin as [i Hi].
    apply named_name_In. exists i, c. now rewrite Hn. }
  repeat split.
  - intros H. apply (Hto "dark" eq_refl) in H as (c & Hc & Hcases).
    destruct Hcases as [[_ ->]|[[E _]|[[E _]|[E _]]]];
      [assumption | discriminate E ..].
  - apply Hfrom. reflexivity.
  - intros H. apply (Hto "light" eq_refl) in H as (c & Hc & Hcases).
    destruct Hcases as [[E _]|[[_ ->]|[[E _]|[E _]]]];
      [discriminate E | assumption | discriminate E ..].
  - apply Hfrom. reflexivity.
  - intros H. apply (Hto "accent" eq_refl) in H as (c & Hc & Hcases).
    destruct Hcases as [[E _]|[[E _]|[[_ ->]|[E _]]]];
      [discriminate E | discriminate E | assumption | discriminate E].
  - apply Hfrom. reflexivity.
  - intros H. apply (Hto "white" eq_refl) in H as (c & Hc & Hcases).
    destruct Hcases as [[E _]|[[E _]|[[E _]|[_ [-> | ->]]]]];
      [discriminate E .. | now left | now right].
  - intros [H|H]; [apply (Hfrom "#FFFFFF") | apply (Hfrom "#ffffff")];
      auto.
Qed.

(** X15: the variables of a section are grouped by bucket, the buckets in
    their order of size: an earlier entry of the spacing sequence never
    falls in a later bucket than a later entry ([none], [xs], [sm], [md],
    [lg], [xl], [xxl]), and likewise for the breakpoints ([mobile],
    [tablet], [desktop], [widescreen], [ultrawide]). *)
Theorem X15_buckets_in_order css vars i j :
  extractVariables css = Normal vars ->
  i < j ->
  (forall v w,
     nth_error (spacing vars) i = Some v ->
     nth_error (spacing vars) j = Some w ->
     position (spacing_bucket (parseInt v)) spacing_order <=
     position (spacing_bucket (parseInt w)) spacing_order) /\
  (forall v w,
     nth_error (breakpoints vars) i = Some v ->
     nth_error (breakpoints vars) j = Some w ->
     position (breakpoint_bucket (parseInt v)) breakpoint_order <=
     position (breakpoint_bucket (parseInt w)) breakpoint_order).
Proof.
  intros Hx Hlt. apply extractVariables_hits in Hx. subst vars.
  cbn [spacing breakpoints]. split; intros v w Hv Hw.
  - pose proof (sort_sorted _ (spacing_hits_numeric css)) as Hs.
    destruct (sorted_nth _ _ Hs i j v w Hlt Hv Hw) as (x & y & -> & -> & Hle).
    unfold spacing_bucket, num_eq, num_le.
    destruct (N.eqb_spec x 0), (N.leb_spec x 4), (N.leb_spec x 8),
      (N.leb_spec x 16), (N.leb_spec x 24), (N.leb_spec x 32);
      destruct (N.eqb_spec y 0), (N.leb_spec y 4), (N.leb_spec y 8),
        (N.leb_spec y 16), (N.leb_spec y 24), (N.leb_spec y 32);
      try lia; cbn; lia.
  - pose proof (sort_sorted _ (breakpoint_hits_numeric css)) as Hs.
    destruct (sorted_nth _ _ Hs i j v w Hlt Hv Hw) as (x & y & -> & -> & Hle).
    unfold breakpoint_bucket, num_le.
    destruct (N.leb_spec x 480), (N.leb_spec x 768), (N.leb_spec x 1024),
      (N.leb_spec x 1280);
      destruct (N.leb_spec y 480), (N.leb_spec y 768), (N.leb_spec y 1024),
        (N.leb_spec y 1280);
      try lia; cbn; lia.
Qed.

Lemma X15_buckets_in_order_witness :
  position (spacing_bucket (parseInt "8px")) spacing_order <=
  position (spacing_bucket (parseInt "16px")) spacing_order.
Proof.
  destruct (X15_buckets_in_order margin_padding
              (Variables [] ["8px"; "16px"] []) 0 1 eq_refl)
    as [H _]; [lia|].
  apply (H "8px" "16px"); reflexivity.
Defined.

